(** * metano: the transporter file parser ([src/transporterparser.py])

    A shallow embedding of the class [TransporterParser]: its two regular
    expressions, run by a small backtracking matcher, the line loop of
    [parse] and the grouping loop of [split_by_type], followed by the
    properties of the two methods.

    Text is modelled as [string] (characters are code points below 256).
    A file is the list of its lines, in the order the [for line in f] loop
    yields them. *)

From Stdlib Require Import Ascii QArith DecimalString.
From stdpp Require Import gmap strings list fin_maps.

(** ** Character classes *)

Module Char.

Definition code (c : ascii) : nat := nat_of_ascii c.

(** [\s] of the [re] module and the characters removed by [str.strip()]
    are the same class, [str.isspace]: below 256 these are tab, the line
    breaks 10 to 13, the separators 28 to 31, blank, NEL and the
    no-break space. *)
Definition isspace (c : ascii) : bool :=
  let n := code c in
  ((9 <=? n) && (n <=? 13)) || ((28 <=? n) && (n <=? 32))
  || (n =? 133) || (n =? 160).

(** [\S]. *)
Definition nonspace (c : ascii) : bool := negb (isspace c).

(** [\d]: the decimal digits (below 256 only [0] to [9] are of
    category Nd). *)
Definition isdigit (c : ascii) : bool :=
  let n := code c in (48 <=? n) && (n <=? 57).

(** [[\d\.]]. *)
Definition digit_or_dot (c : ascii) : bool :=
  isdigit c || Ascii.eqb c "."%char.

(** [[^_]]. *)
Definition not_underscore (c : ascii) : bool := negb (Ascii.eqb c "_"%char).

(** The decimal point. *)
Definition isdot (c : ascii) : bool := Ascii.eqb "."%char c.

End Char.

(** ** Strings *)

Module Str.

Definition is_empty (s : string) : bool :=
  match s with EmptyString => true | String _ _ => false end.

(** The longest prefix of [s] in the class [p], and what follows it. *)
Fixpoint take_while (p : ascii -> bool) (s : string) : string :=
  match s with
  | String c s' => if p c then String c (take_while p s') else EmptyString
  | EmptyString => EmptyString
  end.

Fixpoint drop_while (p : ascii -> bool) (s : string) : string :=
  match s with
  | String c s' => if p c then drop_while p s' else s
  | EmptyString => EmptyString
  end.

Definition lstrip (s : string) : string := drop_while Char.isspace s.

(** A character is dropped from the right end when it is white and
    everything after it has been dropped. *)
Fixpoint rstrip (s : string) : string :=
  match s with
  | String c s' =>
      let r := rstrip s' in
      if Char.isspace c && is_empty r then EmptyString else String c r
  | EmptyString => EmptyString
  end.

(** [line.strip()] *)
Definition strip (s : string) : string := rstrip (lstrip s).

(** [s[0]] when [s] is not empty. *)
Definition head (s : string) : option ascii :=
  match s with String c _ => Some c | EmptyString => None end.

Fixpoint count (c : ascii) (s : string) : nat :=
  match s with
  | String c' s' => (if Ascii.eqb c c' then 1 else 0) + count c s'
  | EmptyString => 0
  end.

(** Whether [s] starts with a character of the class [p]. *)
Definition starts (p : ascii -> bool) (s : string) : bool :=
  match s with String c _ => p c | EmptyString => false end.

Fixpoint all (p : ascii -> bool) (s : string) : bool :=
  match s with
  | String c s' => p c && all p s'
  | EmptyString => true
  end.

End Str.

(** ** Regular expressions

    The fragment of [re] syntax the two patterns are written in, and a
    backtracking matcher for it with the search order of the [re] module:
    a starred class first takes all it can and gives characters back one
    at a time, an optional part is first tried and then skipped, and the
    first way to reach the end of the pattern wins. A continuation receives
    the text just matched and the text that remains. *)

Module Re.

Inductive regex : Type :=
| Chr (c : ascii)                    (* a literal character *)
| Star (cls : ascii -> bool)         (* a starred class, greedy *)
| Cat (r1 r2 : regex)                (* r1 followed by r2 *)
| Opt (r : regex)                    (* an optional part (?:r)?, greedy *)
| Group (i : nat) (r : regex).       (* the capturing group number i *)

(** A match object: the text of every group that took part. *)
Definition match_object : Type := gmap nat string.

(** [m.group(i)]; [None] for a group that did not take part. *)
Definition group (m : match_object) (i : nat) : option string := m !! i.

Section Backtrack.
Context {R : Type}.

Fixpoint star (cls : ascii -> bool) (s : string)
    (k : string -> string -> option R) : option R :=
  match s with
  | String c s' =>
      if cls c then
        match star cls s' (fun t rest => k (String c t) rest) with
        | Some r => Some r
        | None => k EmptyString s
        end
      else k EmptyString s
  | EmptyString => k EmptyString s
  end.

Fixpoint run (r : regex) (s : string) (m : match_object)
    (k : string -> string -> match_object -> option R) : option R :=
  match r with
  | Chr c =>
      match s with
      | String c' s' =>
          if Ascii.eqb c c' then k (String c EmptyString) s' m else None
      | EmptyString => None
      end
  | Star cls => star cls s (fun t rest => k t rest m)
  | Cat r1 r2 =>
      run r1 s m (fun t1 s1 m1 =>
        run r2 s1 m1 (fun t2 s2 m2 => k (t1 +:+ t2) s2 m2))
  | Opt r1 =>
      match run r1 s m k with
      | Some x => Some x
      | None => k EmptyString s m
      end
  | Group i r1 =>
      run r1 s m (fun t rest m' => k t rest (<[i := t]> m'))
  end.
End Backtrack.

(** [pattern.match(s)]: the match is anchored at the start of [s] and
    need not reach its end. *)
Definition re_match (r : regex) (s : string) : option match_object :=
  run r s ∅ (fun _ _ m => Some m).

(** [pattern.match(s).group(0)]: the text the whole pattern covers. *)
Definition re_match_text (r : regex) (s : string) : option string :=
  run r s ∅ (fun t _ _ => Some t).

(** [pattern.fullmatch(s)]: the same search, for a match that reaches
    the end of [s]. [parse] does not call it; it is the line grammar read
    as a description of the whole line. *)
Definition re_fullmatch (r : regex) (s : string) : option match_object :=
  run r s ∅ (fun _ rest m => if Str.is_empty rest then Some m else None).

(** A literal word followed by [k]. *)
Fixpoint lit (w : string) (k : regex) : regex :=
  match w with
  | String c w' => Cat (Chr c) (lit w' k)
  | EmptyString => k
  end.

End Re.

(** ** Floating-point literals

    [float] is only ever applied to the text of group 2 of the line
    pattern, a run of digits and dots. On such text it succeeds exactly on
    digits with at most one dot and at least one digit; the value is kept
    as the exact decimal, in lowest terms (the rounding to a double is not
    modelled). Any other character makes the model fail. *)

Module Float.

Definition digit_value (c : ascii) : Z := Z.of_nat (Char.code c - 48).

(** The number written by a run of digits, continuing from [acc]. *)
Fixpoint digits_value (acc : Z) (s : string) : Z :=
  match s with
  | String c s' => digits_value (10 * acc + digit_value c)%Z s'
  | EmptyString => acc
  end.

Definition decimal (int_part frac_part : string) : Q :=
  Qred (Qmake (digits_value (digits_value 0 int_part) frac_part)
              (Z.to_pos (10 ^ Z.of_nat (String.length frac_part)))).

(** [float(s)]; [None] stands for the [ValueError] it raises. *)
Definition float (s : string) : option Q :=
  let int_part := Str.take_while Char.isdigit s in
  match Str.drop_while Char.isdigit s with
  | EmptyString =>
      if Str.is_empty int_part then None
      else Some (decimal int_part EmptyString)
  | String c frac_part =>
      if Ascii.eqb c "."%char && Str.all Char.isdigit frac_part
         && negb (Str.is_empty int_part && Str.is_empty frac_part)
      then Some (decimal int_part frac_part)
      else None
  end.

End Float.

(** ** The parser *)

Module TransporterParser.

Import Re.

(** The class attribute [line_pattern], in the source (written here with
    blanks between its three parts)

      ( \S* )   (?: \s* ( [\d\.]* ) )?   (?: \s* co\( ( \S* ) \) )?  *)
Definition factor_part : regex :=
  Cat (Star Char.isspace) (Group 2 (Star Char.digit_or_dot)).

Definition co_part : regex :=
  Cat (Star Char.isspace)
      (lit "co(" (Cat (Group 3 (Star Char.nonspace)) (Chr ")"%char))).

Definition line_pattern : regex :=
  Cat (Group 1 (Star Char.nonspace))
      (Cat (Opt factor_part) (Opt co_part)).

(** The class attribute [name_pattern], in the source

      [^_]* _ ( [^_]* ) _  *)
Definition name_pattern : regex :=
  Cat (Star Char.not_underscore)
    (Cat (Chr "_"%char)
         (Cat (Group 1 (Star Char.not_underscore)) (Chr "_"%char))).

(** An entry of [self.transporters]: the tuple
    [(transporter_name, flux_factor, cotransporter_name)]. *)
Definition transporter : Type := string * option Q * option string.

(** An entry of a group: [(typ,) + entry]. *)
Definition typed_transporter : Type :=
  string * string * option Q * option string.

Definition with_type (typ : string) (entry : transporter)
  : typed_transporter :=
  let '(name, factor, cotrans) := entry in (typ, name, factor, cotrans).

(** The exceptions that leave the two methods. The two handlers of
    [parse] build their message from the locals [transfac] and [line_no],
    the handler of [split_by_type] from [entry[0]]; these are the
    arguments kept here. [TypeError] and [IndexError] are not handled by
    the source: they stand for a [None] used as a string and for a list
    index out of range. *)
Inductive exn : Type :=
| ValueError (transfac : string) (line_no : nat)
| SyntaxError (line_no : nat)
| SyntaxError_name (name : string)
| TypeError
| IndexError.

(** [%u] of a number. *)
Definition show_nat (n : nat) : string :=
  NilZero.string_of_uint (Nat.to_uint n).

(** The message the source gives to an exception it raises. *)
Definition message (e : exn) : option string :=
  match e with
  | ValueError transfac line_no =>
      Some ("Illegal float value " +:+ transfac +:+ " in line "
            +:+ show_nat line_no +:+ " of transporter file.")
  | SyntaxError line_no =>
      Some ("Syntax error in line " +:+ show_nat line_no
            +:+ " of transporter file.")
  | SyntaxError_name name =>
      Some ("Malformed transporter name: " +:+ name
            +:+ " (cannot identify typ)")
  | TypeError | IndexError => None
  end.

(** The instance: its only attribute. *)
Record parser : Type := Parser { transporters : list transporter }.

(** [clear], which [__init__] calls. *)
Definition clear (self : parser) : parser := Parser [].
Definition init : parser := Parser [].

(** The test that skips a line: the stripped line is empty or its first
    character is the number sign. *)
Definition blank_or_comment (line : string) : bool :=
  Str.is_empty line || bool_decide (Str.head line = Some "#"%char).

(** The body of the [for] loop of [parse] on one line, with [line_no]
    already advanced. The result is the new [self.transporters], or the
    exception that leaves [parse]: a [ValueError] of [float] and an
    [AttributeError] of [m.group] on [None] are caught and raised again
    by the two handlers. Groups 1 and 2 of a match of [line_pattern] are
    strings and never [None] ([ReFacts.line_group1], [line_group2]); the
    entries are typed accordingly, and the case that does not arise is
    given the [TypeError] of [float(None)]. *)
Definition parse_line (line_no : nat) (line : string)
    (acc : list transporter) : exn + list transporter :=
  let line := Str.strip line in
  if blank_or_comment line then inr acc
  else
    match re_match line_pattern line with
    | None => inl (SyntaxError line_no)
    | Some m =>
        match group m 1, group m 2 with
        | Some transname, Some transfac =>
            if Str.is_empty transfac then
              inr (acc ++ [(transname, None, group m 3)])
            else
              match Float.float transfac with
              | Some x => inr (acc ++ [(transname, Some x, group m 3)])
              | None => inl (ValueError transfac line_no)
              end
        | _, _ => inl TypeError
        end
    end.

(** The [for] loop: [line_no] is the number of lines read so far. The
    list is updated in place, so what was appended before an exception
    stays in the instance. *)
Fixpoint parse_lines (lines : list string) (line_no : nat)
    (acc : list transporter) : list transporter * option exn :=
  match lines with
  | [] => (acc, None)
  | line :: rest =>
      let line_no := S line_no in
      match parse_line line_no line acc with
      | inl e => (acc, Some e)
      | inr acc' => parse_lines rest line_no acc'
      end
  end.

(** [parse(self, filename)], on the lines of the file: the instance
    afterwards, and the exception raised or the list returned (which is
    [self.transporters] itself). *)
Definition parse (self : parser) (lines : list string)
  : parser * (exn + list transporter) :=
  let '(acc, e) := parse_lines lines 0 (transporters self) in
  (Parser acc, match e with Some e => inl e | None => inr acc end).

(** The body of the [for] loop of [split_by_type]. Group 1 of a match of
    [name_pattern] is never [None]; [list_of_lists[i]] raises [IndexError]
    for an index out of range, which the dictionary never holds
    ([SplitFacts.split_entry_step]). *)
Definition split_entry
    (st : gmap string nat * list (list typed_transporter))
    (entry : transporter)
  : exn + (gmap string nat * list (list typed_transporter)) :=
  let '(dict_of_types, list_of_lists) := st in
  match re_match name_pattern (entry.1.1) with
  | None => inl (SyntaxError_name (entry.1.1))
  | Some m =>
      match group m 1 with
      | None => inl TypeError
      | Some typ =>
          match dict_of_types !! typ with
          | None =>
              inr (<[typ := length list_of_lists]> dict_of_types,
                   list_of_lists ++ [[with_type typ entry]])
          | Some i =>
              match list_of_lists !! i with
              | Some g =>
                  inr (dict_of_types,
                       <[i := g ++ [with_type typ entry]]> list_of_lists)
              | None => inl IndexError
              end
          end
      end
  end.

Fixpoint split_loop (l : list transporter)
    (st : gmap string nat * list (list typed_transporter))
  : exn + (gmap string nat * list (list typed_transporter)) :=
  match l with
  | [] => inr st
  | entry :: rest =>
      match split_entry st entry with
      | inl e => inl e
      | inr st' => split_loop rest st'
      end
  end.

(** [split_by_type(self, l=None)] *)
Definition split_by_type (self : parser) (l : option (list transporter))
  : exn + list (list typed_transporter) :=
  let l := match l with Some l => l | None => transporters self end in
  match split_loop l (∅, []) with
  | inl e => inl e
  | inr (_, list_of_lists) => inr list_of_lists
  end.

(** *** Notions the properties are stated with *)

(** The factor token of a line that [float] rejects, if the line is
    read at all and has one. *)
Definition offending_token (raw : string) : option string :=
  let line := Str.strip raw in
  if blank_or_comment line then None
  else
    match re_match line_pattern line with
    | Some m =>
        match group m 2 with
        | Some tok =>
            if Str.is_empty tok then None
            else match Float.float tok with
                 | Some _ => None
                 | None => Some tok
                 end
        | None => None
        end
    | None => None
    end.

(** The lines of a file that are neither blank nor comments. *)
Definition content_lines (lines : list string) : list string :=
  filter (fun raw => blank_or_comment (Str.strip raw) = false) lines.

Definition name_of (entry : transporter) : string := entry.1.1.
Definition type_of (e : typed_transporter) : string := e.1.1.1.
Definition untyped (e : typed_transporter) : transporter :=
  (e.1.1.2, e.1.2, e.2).

(** The type code of a name, read off the match of [name_pattern]. *)
Definition derived_type (name : string) : option string :=
  m ← re_match name_pattern name; group m 1.

(** The distinct elements of a list in the order of their first
    occurrence. *)
Fixpoint first_seen (ts : list string) : list string :=
  match ts with
  | [] => []
  | t :: ts' => t :: filter (fun t' => t' ≠ t) (first_seen ts')
  end.

(** Every entry with its type code in front, when every name has one. *)
Fixpoint typed_entries (l : list transporter)
  : option (list typed_transporter) :=
  match l with
  | [] => Some []
  | entry :: l' =>
      match derived_type (name_of entry), typed_entries l' with
      | Some typ, Some tl => Some (with_type typ entry :: tl)
      | _, _ => None
      end
  end.

(** The entries of type [t], in the order they have in [tl]. *)
Definition of_type (t : string) (tl : list typed_transporter)
  : list typed_transporter :=
  filter (fun e => type_of e = t) tl.

(** One group for each type code, in the order of first occurrence. *)
Definition groups_of (tl : list typed_transporter)
  : list (list typed_transporter) :=
  (fun t => of_type t tl) <$> first_seen (type_of <$> tl).

(** The state of the loop of [split_by_type] after the entries [tl]
    (with their type codes): the list holds their groups and the
    dictionary the position of the group of each type. *)
Definition loop_inv
    (st : gmap string nat * list (list typed_transporter))
    (tl : list typed_transporter) : Prop :=
  st.2 = groups_of tl
  ∧ ∀ t i, st.1 !! t = Some i <-> first_seen (type_of <$> tl) !! i = Some t.

(** An exception of [parse] with its line number counted on from line
    [k]: what a handler reports when [k] lines were read before. *)
Definition shift_line (k : nat) (e : exn) : exn :=
  match e with
  | ValueError transfac line_no => ValueError transfac (k + line_no)
  | SyntaxError line_no => SyntaxError (k + line_no)
  | _ => e
  end.

End TransporterParser.

(** ** What the groups hold

    The text of the groups of the two patterns, computed from left to
    right without search; [ReFacts] proves that the matcher finds exactly
    these. *)

Module Tokens.
Import Str.

Definition name_token (line : string) : string :=
  take_while Char.nonspace line.

Definition after_name (line : string) : string :=
  drop_while Char.isspace (drop_while Char.nonspace line).

Definition factor_token (line : string) : string :=
  take_while Char.digit_or_dot (after_name line).

Definition after_factor (line : string) : string :=
  drop_while Char.digit_or_dot (after_name line).

(** The longest start of the run of non-white characters of [s] that a
    closing bracket follows. *)
Fixpoint co_close (s : string) : option string :=
  match s with
  | String c s' =>
      if Char.nonspace c then
        match co_close s' with
        | Some t => Some (String c t)
        | None => if Ascii.eqb ")"%char c then Some EmptyString else None
        end
      else None
  | EmptyString => None
  end.

(** The name inside a [co(...)] clause at the start of [s], white space
    skipped. *)
Definition co_text (s : string) : option string :=
  match drop_while Char.isspace s with
  | String c1 (String c2 (String c3 s')) =>
      if Ascii.eqb "c"%char c1 && Ascii.eqb "o"%char c2
         && Ascii.eqb "("%char c3
      then co_close s' else None
  | _ => None
  end.

Definition co_token (line : string) : option string :=
  co_text (after_factor line).

(** The text between the first and the second underscore of [name]. *)
Definition type_code (name : string) : option string :=
  match drop_while Char.not_underscore name with
  | String _ s1 =>
      match drop_while Char.not_underscore s1 with
      | String _ _ => Some (take_while Char.not_underscore s1)
      | EmptyString => None
      end
  | EmptyString => None
  end.

(** The white space between the name and the factor. *)
Definition space_after_name (line : string) : string :=
  take_while Char.isspace (drop_while Char.nonspace line).

(** The text of the [co(...)] clause at the start of [s], with the white
    space before it; empty when there is no such clause. *)
Definition co_span (s : string) : string :=
  match co_text s with
  | Some g => take_while Char.isspace s +:+ "co(" +:+ g +:+ ")"
  | None => EmptyString
  end.

(** The part of a line the line pattern covers. *)
Definition covered (line : string) : string :=
  name_token line
  +:+ (space_after_name line +:+ factor_token line)
  +:+ co_span (after_factor line).

(** The match object of a line: groups 1 and 2 always take part. *)
Definition line_groups (line : string) : Re.match_object :=
  let m := <[2 := factor_token line]> (<[1 := name_token line]> ∅) in
  match co_token line with
  | Some t => <[3 := t]> m
  | None => m
  end.

(** What [parse] does with one line of the file. *)
Inductive line_kind : Type :=
| Skipped
| Entry (t : TransporterParser.transporter)
| BadFactor (tok : string).

Definition classify (raw : string) : line_kind :=
  let line := strip raw in
  if TransporterParser.blank_or_comment line then Skipped
  else
    let tok := factor_token line in
    if is_empty tok then Entry (name_token line, None, co_token line)
    else
      match Float.float tok with
      | Some x => Entry (name_token line, Some x, co_token line)
      | None => BadFactor tok
      end.

Definition entry_of (raw : string)
  : option TransporterParser.transporter :=
  match classify raw with Entry t => Some t | _ => None end.

(** The entries of the lines of a file none of which is rejected. *)
Definition records (lines : list string)
  : list TransporterParser.transporter :=
  omap entry_of lines.

End Tokens.

(** * Properties *)

(** ** Strings *)

Module StrFacts.
Import Str.

Lemma is_empty_false s : is_empty s = false <-> s <> EmptyString.
Proof. destruct s; simpl; split; congruence. Qed.

Lemma app_cons c s t : String c s +:+ t = String c (s +:+ t).
Proof. reflexivity. Qed.

Lemma app_empty_l t : EmptyString +:+ t = t.
Proof. reflexivity. Qed.

Lemma take_drop_while p s : take_while p s +:+ drop_while p s = s.
Proof.
  induction s as [|c s IH]; simpl; [done|].
  destruct (p c); [by rewrite app_cons, IH | done].
Qed.

Lemma all_take_while p s : all p (take_while p s) = true.
Proof.
  induction s as [|c s IH]; simpl; [done|].
  destruct (p c) eqn:E; simpl; [by rewrite E | done].
Qed.

Lemma head_drop_while p s c :
  head (drop_while p s) = Some c -> p c = false.
Proof.
  induction s as [|c' s IH]; simpl; [done|].
  destruct (p c') eqn:E; simpl; [done | congruence].
Qed.

Lemma take_while_all p s t :
  all p s = true -> starts p t = false ->
  take_while p (s +:+ t) = s ∧ drop_while p (s +:+ t) = t.
Proof.
  intros Hs Ht. induction s as [|c s IH].
  - rewrite app_empty_l. destruct t as [|c t]; simpl in *; [done|].
    by rewrite Ht.
  - rewrite app_cons. simpl in *.
    apply andb_prop in Hs as [-> Hs]. destruct (IH Hs) as [-> ->]. done.
Qed.

Lemma starts_drop_while p s : starts p (drop_while p s) = false.
Proof.
  induction s as [|c s IH]; [done|]. cbn [drop_while].
  destruct (p c) eqn:E; [done|]. by cbn [starts].
Qed.

Lemma starts_app p s t : s ≠ EmptyString -> starts p (s +:+ t) = starts p s.
Proof. by destruct s. Qed.

Lemma starts_all p s : all p s = true -> s ≠ EmptyString -> starts p s = true.
Proof.
  destruct s as [|c s]; [done|]. cbn [all starts].
  by intros [-> _]%andb_prop.
Qed.

Lemma starts_weaken (p q : ascii -> bool) s :
  (forall c, p c = true -> q c = false) -> starts p s = true ->
  starts q s = false.
Proof. destruct s as [|c s]; [done|]. cbn [starts]. auto. Qed.

(** A run that is empty leaves the text as it is. *)
Lemma take_while_empty p s :
  take_while p s = EmptyString -> drop_while p s = s.
Proof.
  destruct s as [|c s]; [done|]. cbn [take_while drop_while].
  by destruct (p c).
Qed.

Lemma drop_while_starts p s : starts p s = false -> drop_while p s = s.
Proof.
  destruct s as [|c s]; [done|]. cbn [starts drop_while]. by intros ->.
Qed.

Lemma take_while_starts p s :
  starts p s = false -> take_while p s = EmptyString.
Proof.
  destruct s as [|c s]; [done|]. cbn [starts take_while]. by intros ->.
Qed.

Lemma app_assoc_s a b c : (a +:+ b) +:+ c = a +:+ (b +:+ c).
Proof.
  induction a as [|x a IH]; [done|]. by rewrite !app_cons, IH.
Qed.

Lemma app_empty_r s : s +:+ EmptyString = s.
Proof. induction s as [|x s IH]; [done|]. by rewrite app_cons, IH. Qed.

Lemma all_app p s t : all p (s +:+ t) = all p s && all p t.
Proof.
  induction s as [|x s IH]; [done|].
  rewrite app_cons. cbn [all]. by rewrite IH, andb_assoc.
Qed.

Lemma rstrip_head c s :
  Char.isspace c = false -> rstrip (String c s) = String c (rstrip s).
Proof. simpl. by intros ->. Qed.

(** What [strip] leaves starts with a character that is not white. *)
Lemma strip_head s c : head (strip s) = Some c -> Char.isspace c = false.
Proof.
  unfold strip, lstrip.
  destruct (drop_while Char.isspace s) as [|c' s'] eqn:E; [done|].
  assert (Char.isspace c' = false) as Hc'.
  { apply (head_drop_while Char.isspace s). by rewrite E. }
  rewrite rstrip_head by done. simpl. congruence.
Qed.

Lemma rstrip_app s t :
  rstrip t ≠ EmptyString -> rstrip (s +:+ t) = s +:+ rstrip t.
Proof.
  intros Ht. induction s as [|c s IH]; [done|].
  rewrite !app_cons. cbn [rstrip]. rewrite IH.
  destruct (s +:+ rstrip t) eqn:E; [|by rewrite andb_false_r].
  destruct s; [|done]. by rewrite app_empty_l in E.
Qed.

Lemma rstrip_all_nonspace t : all Char.nonspace t = true -> rstrip t = t.
Proof.
  induction t as [|c t IH]; [done|]. cbn [all rstrip].
  intros [Hc Ht]%andb_prop. rewrite (IH Ht).
  unfold Char.nonspace in Hc. apply negb_true_iff in Hc. by rewrite Hc.
Qed.

Lemma rstrip_all_space w : all Char.isspace w = true -> rstrip w = EmptyString.
Proof.
  induction w as [|c w IH]; [done|]. cbn [all rstrip].
  intros [Hc Hw]%andb_prop. by rewrite (IH Hw), Hc.
Qed.

Lemma rstrip_app_space s w :
  rstrip w = EmptyString -> rstrip (s +:+ w) = rstrip s.
Proof.
  intros Hw. induction s as [|c s IH]; [done|].
  rewrite app_cons. cbn [rstrip]. by rewrite IH.
Qed.

Lemma drop_while_head p c s :
  p c = false -> drop_while p (String c s) = String c s.
Proof. cbn [drop_while]. by intros ->. Qed.

Lemma take_while_head_false p c s :
  p c = false -> take_while p (String c s) = EmptyString.
Proof. cbn [take_while]. by intros ->. Qed.

End StrFacts.

(** ** The matcher *)

Module ReFacts.
Import Str Re StrFacts.

Section Star.
Context {R : Type}.
Implicit Types (k : string -> string -> option R).

(** The first attempt of a starred class is its longest run. *)
Lemma star_max cls s k r :
  k (take_while cls s) (drop_while cls s) = Some r ->
  star cls s k = Some r.
Proof.
  revert k. induction s as [|c s IH]; intros k; simpl; [done|].
  destruct (cls c); [|done].
  intros Hk. by rewrite (IH (fun t rest => k (String c t) rest) Hk).
Qed.

(** When what follows cannot start inside the run, giving characters
    back is of no use. *)
Lemma star_commit cls s k :
  (forall t c rest, cls c = true -> k t (String c rest) = None) ->
  star cls s k = k (take_while cls s) (drop_while cls s).
Proof.
  revert k. induction s as [|c s IH]; intros k Hk; simpl; [done|].
  destruct (cls c) eqn:Hc; [|done].
  rewrite IH by (intros; by apply Hk).
  destruct (k (String c (take_while cls s)) (drop_while cls s)) eqn:E;
    [done|].
  by apply Hk.
Qed.
End Star.

Lemma isspace_not c c' :
  Char.isspace c' = true -> Char.isspace c = false -> Ascii.eqb c c' = false.
Proof.
  intros H1 H2. destruct (Ascii.eqb_spec c c') as [->|]; congruence.
Qed.

(** The closing bracket of the [co(...)] clause: the matcher gives
    characters back until one follows. *)
Lemma star_close {R} (g : string -> R) s :
  star Char.nonspace s
    (fun t rest =>
       match rest with
       | EmptyString => None
       | String c _ => if Ascii.eqb ")"%char c then Some (g t) else None
       end)
  = g <$> Tokens.co_close s.
Proof.
  revert g. induction s as [|c s IH]; intros g;
    cbn [star Tokens.co_close]; [done|].
  destruct (Char.nonspace c) eqn:Hc.
  - rewrite (IH (fun t => g (String c t))).
    destruct (Tokens.co_close s); [done|].
    by destruct (Ascii.eqb ")"%char c).
  - rewrite isspace_not; [done| |done].
    unfold Char.nonspace in Hc. by apply negb_false_iff in Hc.
Qed.

Import TransporterParser.

Lemma co_part_run {R} (f : string -> match_object -> R) s m :
  run co_part s m (fun t _ m' => Some (f t m'))
  = (fun g => f (take_while Char.isspace s +:+ "co(" +:+ g +:+ ")")
                 (<[3 := g]> m)) <$> Tokens.co_text s.
Proof.
  unfold co_part. cbn [run lit].
  rewrite star_commit.
  2:{ intros t c rest Hc. by rewrite isspace_not. }
  unfold Tokens.co_text.
  destruct (drop_while Char.isspace s) as [|c1 [|c2 [|c3 s']]]; try done.
  - by destruct (Ascii.eqb "c"%char c1).
  - by destruct (Ascii.eqb "c"%char c1), (Ascii.eqb "o"%char c2).
  - destruct (Ascii.eqb "c"%char c1), (Ascii.eqb "o"%char c2),
      (Ascii.eqb "("%char c3); cbn [andb]; try done.
    apply (star_close
             (fun g => f (take_while Char.isspace s +:+ "co(" +:+ g +:+ ")")
                         (<[3 := g]> m))).
Qed.

(** The search on a line always ends at its first attempt: every part
    takes all it can, and the [co(...)] clause is skipped when it is not
    there. *)
Lemma line_pattern_run {R} (f : string -> match_object -> R) line :
  run line_pattern line ∅ (fun t _ m => Some (f t m))
  = Some (f (Tokens.covered line) (Tokens.line_groups line)).
Proof.
  unfold line_pattern. cbn [run].
  apply star_max. cbn beta.
  match goal with
  | |- match ?a with _ => _ end = _ =>
      assert (a = Some (f (Tokens.covered line) (Tokens.line_groups line)))
        as ->; [|done]
  end.
  unfold factor_part. cbn [run].
  apply star_max, star_max. cbn beta.
  rewrite (co_part_run (fun t2 m2 => f (_ +:+ _ +:+ t2) m2)).
  unfold Tokens.covered, Tokens.co_span, Tokens.line_groups,
    Tokens.co_token, Tokens.after_factor, Tokens.factor_token,
    Tokens.space_after_name, Tokens.name_token, Tokens.after_name.
  by destruct (Tokens.co_text _).
Qed.

Lemma line_pattern_match line :
  re_match line_pattern line = Some (Tokens.line_groups line).
Proof. apply (line_pattern_run (fun _ m => m)). Qed.

Lemma line_pattern_text line :
  re_match_text line_pattern line = Some (Tokens.covered line).
Proof. apply (line_pattern_run (fun t _ => t)). Qed.

Lemma line_group1 line :
  group (Tokens.line_groups line) 1 = Some (Tokens.name_token line).
Proof.
  unfold group, Tokens.line_groups.
  destruct (Tokens.co_token line); by simplify_map_eq.
Qed.

Lemma line_group2 line :
  group (Tokens.line_groups line) 2 = Some (Tokens.factor_token line).
Proof.
  unfold group, Tokens.line_groups.
  destruct (Tokens.co_token line); by simplify_map_eq.
Qed.

Lemma line_group3 line :
  group (Tokens.line_groups line) 3 = Tokens.co_token line.
Proof.
  unfold group, Tokens.line_groups.
  destruct (Tokens.co_token line); by simplify_map_eq.
Qed.

Lemma not_underscore_false c :
  Char.not_underscore c = false <-> c = "_"%char.
Proof.
  unfold Char.not_underscore. rewrite negb_false_iff.
  apply Ascii.eqb_eq.
Qed.

(** A run of characters other than underscores stops at an underscore:
    from [E : drop_while Char.not_underscore s = String c _], replace [c]. *)
Ltac underscore_head s c E :=
  assert (c = "_"%char) as ->
    by (apply not_underscore_false,
          (head_drop_while Char.not_underscore s); by rewrite E).

Lemma name_pattern_match name :
  re_match name_pattern name
  = (fun t => <[1 := t]> ∅) <$> Tokens.type_code name.
Proof.
  unfold re_match, name_pattern. cbn [run].
  rewrite star_commit.
  2:{ intros _ c rest Hc.
      destruct (Ascii.eqb_spec "_"%char c) as [<-|]; [done|done]. }
  unfold Tokens.type_code.
  destruct (drop_while Char.not_underscore name) as [|c1 s1] eqn:E1;
    [done|].
  underscore_head name c1 E1.
  rewrite Ascii.eqb_refl.
  rewrite star_commit.
  2:{ intros t c rest Hc.
      destruct (Ascii.eqb_spec "_"%char c) as [<-|]; [done|done]. }
  destruct (drop_while Char.not_underscore s1) as [|c2 s2] eqn:E2;
    [done|].
  underscore_head s1 c2 E2.
  by rewrite Ascii.eqb_refl.
Qed.

End ReFacts.

(** ** The line loop *)

Module ParseFacts.
Import Str Re StrFacts ReFacts TransporterParser Tokens.

Lemma parse_line_classify n raw acc :
  parse_line n raw acc =
  match classify raw with
  | Skipped => inr acc
  | Entry t => inr (acc ++ [t])
  | BadFactor tok => inl (ValueError tok n)
  end.
Proof.
  unfold parse_line, classify.
  destruct (blank_or_comment (strip raw)); [done|].
  rewrite line_pattern_match, line_group1, line_group2, line_group3.
  destruct (is_empty (factor_token (strip raw))); [done|].
  by destruct (Float.float _).
Qed.

Lemma offending_classify raw :
  offending_token raw =
  match classify raw with BadFactor tok => Some tok | _ => None end.
Proof.
  unfold offending_token, classify.
  destruct (blank_or_comment (strip raw)); [done|].
  rewrite line_pattern_match, line_group2.
  destruct (is_empty (factor_token (strip raw))); [done|].
  by destruct (Float.float _).
Qed.

Lemma classify_skipped raw :
  classify raw = Skipped <-> blank_or_comment (strip raw) = true.
Proof.
  unfold classify. destruct (blank_or_comment (strip raw)); [done|].
  destruct (is_empty _); [done|]. by destruct (Float.float _).
Qed.

Example message_of_bad_factor :
  match (parse init ["# flux"; "trans_c_glu 1..5"]).2 with
  | inl e => message e
  | inr _ => None
  end = Some "Illegal float value 1..5 in line 2 of transporter file.".
Proof. reflexivity. Qed.

(** A file without an offending line is read to its end. *)
Lemma parse_lines_ok lines : forall n acc,
  Forall (fun raw => offending_token raw = None) lines ->
  parse_lines lines n acc = (acc ++ records lines, None).
Proof.
  induction lines as [|raw lines IH]; intros n acc Hok; simpl.
  - by rewrite app_nil_r.
  - apply Forall_cons in Hok as [Hraw Hok].
    rewrite parse_line_classify. rewrite offending_classify in Hraw.
    unfold records, entry_of. simpl.
    destruct (classify raw) as [|t|tok]; [| |done].
    + by apply IH.
    + rewrite (IH _ _ Hok). by rewrite <- app_assoc.
Qed.

(** The loop stops at the first offending line. *)
Lemma parse_lines_err before raw tok after : forall n acc,
  Forall (fun raw => offending_token raw = None) before ->
  offending_token raw = Some tok ->
  parse_lines (before ++ raw :: after) n acc
  = (acc ++ records before, Some (ValueError tok (n + S (length before)))).
Proof.
  induction before as [|r before IH]; intros n acc Hok Hbad; simpl.
  - rewrite parse_line_classify. rewrite offending_classify in Hbad.
    destruct (classify raw); simplify_eq.
    by rewrite app_nil_r, Nat.add_1_r.
  - apply Forall_cons in Hok as [Hr Hok].
    rewrite parse_line_classify. rewrite offending_classify in Hr.
    unfold records, entry_of. simpl.
    replace (n + S (S (length before))) with (S n + S (length before))
      by lia.
    destruct (classify r) as [|t|tok']; [| |done].
    + by apply IH.
    + rewrite (IH _ _ Hok Hbad). by rewrite <- app_assoc.
Qed.

Lemma first_offending lines :
  Forall (fun raw => offending_token raw = None) lines
  ∨ ∃ before raw tok after,
      lines = before ++ raw :: after
      ∧ Forall (fun raw => offending_token raw = None) before
      ∧ offending_token raw = Some tok.
Proof.
  induction lines as [|r lines IH]; [by left|].
  destruct (offending_token r) as [tok|] eqn:Hr.
  - right. by exists [], r, tok, lines.
  - destruct IH as [IH|(before & raw & tok & after & -> & Hok & Hbad)].
    + left. by constructor.
    + right. exists (r :: before), raw, tok, after.
      split; [done|]. split; [by constructor | done].
Qed.

Lemma records_length lines :
  Forall (fun raw => offending_token raw = None) lines ->
  length (records lines) = length (content_lines lines).
Proof.
  unfold records, content_lines.
  induction 1 as [|raw lines Hraw _ IH]; [done|].
  rewrite filter_cons. simpl. unfold entry_of at 1.
  rewrite offending_classify in Hraw.
  pose proof (classify_skipped raw) as Hs.
  destruct (classify raw) as [|t|tok] eqn:E; [| |done].
  - rewrite decide_False; [done|]. rewrite (proj1 Hs); [done|done].
  - rewrite decide_True; [simpl; f_equal; exact IH|].
    destruct (blank_or_comment (strip raw)); [|done].
    by destruct Hs as [_ Hs]; specialize (Hs eq_refl).
Qed.

Lemma name_token_nonempty line :
  blank_or_comment line = false ->
  (forall c, head line = Some c -> Char.isspace c = false) ->
  name_token line ≠ EmptyString.
Proof.
  unfold blank_or_comment, name_token. intros Hb Hc.
  destruct line as [|c line]; [done|].
  cbn [take_while]. unfold Char.nonspace. by rewrite (Hc c eq_refl).
Qed.

Lemma entry_name raw t : entry_of raw = Some t -> name_of t ≠ EmptyString.
Proof.
  unfold entry_of, classify.
  destruct (blank_or_comment (strip raw)) eqn:Hb; [done|].
  pose proof (name_token_nonempty _ Hb (strip_head raw)) as Hn.
  destruct (is_empty _); [by intros [= <-]|].
  destruct (Float.float _); [by intros [= <-] | done].
Qed.

Lemma records_names lines :
  Forall (fun t => name_of t ≠ EmptyString) (records lines).
Proof.
  apply Forall_forall. intros t Ht.
  apply list_elem_of_omap in Ht as (raw & _ & Ht). by eapply entry_name.
Qed.

(** A name, a blank and then text that starts neither a factor nor a
    [co(...)] clause: the text plays no part. *)
Lemma classify_trailing name junk c :
  blank_or_comment name = false ->
  all Char.nonspace name = true ->
  head junk = Some c ->
  Char.isspace c = false ->
  Char.digit_or_dot c = false ->
  Ascii.eqb "c"%char c = false ->
  classify (name +:+ " " +:+ junk) = Entry (name, None, None).
Proof.
  intros Hname Hns Hjunk Hsp Hdd Hc.
  destruct junk as [|c' junk]; [done|].
  cbn [head] in Hjunk. injection Hjunk as ->.
  change (" " +:+ String c junk) with (String " "%char (String c junk)).
  assert (rstrip (String " "%char (String c junk))
          = String " "%char (String c (rstrip junk))) as Hr.
  { cbn [rstrip]. by rewrite Hsp. }
  destruct name as [|c0 name]; [done|].
  assert (Char.isspace c0 = false) as Hc0.
  { cbn [all] in Hns. apply andb_prop in Hns as [Hns _].
    unfold Char.nonspace in Hns. by apply negb_true_iff. }
  assert (strip (String c0 name +:+ String " "%char (String c junk))
          = String c0 name +:+ String " "%char (String c (rstrip junk)))
    as Hstrip.
  { unfold strip, lstrip. rewrite app_cons, drop_while_head by done.
    change (String c0 (name +:+ String " "%char (String c junk)))
      with (String c0 name +:+ String " "%char (String c junk)).
    rewrite rstrip_app; by rewrite Hr. }
  unfold classify. rewrite Hstrip.
  replace (blank_or_comment _) with false by (by rewrite app_cons).
  unfold factor_token, co_token, after_factor, after_name, name_token.
  destruct (take_while_all Char.nonspace (String c0 name)
              (String " "%char (String c (rstrip junk))) Hns)
    as [-> ->]; [done|].
  replace (drop_while Char.isspace
             (String " "%char (String c (rstrip junk))))
    with (String c (rstrip junk))
    by (cbn [drop_while]; by rewrite Hsp).
  rewrite take_while_head_false, drop_while_head by done.
  cbn [is_empty]. unfold co_text. rewrite drop_while_head by done.
  destruct (rstrip junk) as [|c2 [|c3 s']]; [done|done|].
  by rewrite Hc.
Qed.

(** *** The part of a line the pattern covers *)

Lemma dd_nonspace c : Char.digit_or_dot c = true -> Char.isspace c = false.
Proof. by destruct c as [[] [] [] [] [] [] [] []]. Qed.

Lemma space_not_dd c : Char.isspace c = true -> Char.digit_or_dot c = false.
Proof.
  intros Hc. destruct (Char.digit_or_dot c) eqn:E; [|done].
  apply dd_nonspace in E. congruence.
Qed.

Lemma space_not_nonspace c : Char.isspace c = true -> Char.nonspace c = false.
Proof. unfold Char.nonspace. by intros ->. Qed.

Lemma dd_is_nonspace c : Char.digit_or_dot c = true -> Char.nonspace c = true.
Proof. intros ?%dd_nonspace. unfold Char.nonspace. by apply negb_true_iff. Qed.

Lemma all_weaken (p q : ascii -> bool) s :
  (forall c, p c = true -> q c = true) -> all p s = true -> all q s = true.
Proof.
  intros Hpq. induction s as [|c s IH]; [done|]. cbn [all].
  intros [Hc Hs]%andb_prop. by rewrite (Hpq c Hc), (IH Hs).
Qed.

Lemma neither_starts s :
  starts Char.nonspace s = false -> starts Char.isspace s = false ->
  s = EmptyString.
Proof.
  destruct s as [|c s]; [done|]. cbn [starts]. unfold Char.nonspace.
  by intros ?%negb_false_iff ?; congruence.
Qed.

Lemma co_close_nonspace s : forall g,
  co_close s = Some g -> all Char.nonspace g = true.
Proof.
  induction s as [|c s IH]; intros g; cbn [co_close]; [done|].
  destruct (Char.nonspace c) eqn:Hc; [|done].
  destruct (co_close s) as [t|].
  - intros [= <-]. cbn [all]. by rewrite Hc, (IH t).
  - destruct (Ascii.eqb ")"%char c); [by intros [= <-] | done].
Qed.

Lemma co_close_prefix s : forall g,
  co_close s = Some g -> ∃ rest, s = g +:+ String ")"%char rest.
Proof.
  induction s as [|c s IH]; intros g; cbn [co_close]; [done|].
  destruct (Char.nonspace c) eqn:Hc; [|done].
  destruct (co_close s) as [t|].
  - intros [= <-]. destruct (IH t eq_refl) as [rest ->].
    by exists rest.
  - destruct (Ascii.eqb_spec ")"%char c) as [<-|]; [|done].
    intros [= <-]. by exists s.
Qed.

Lemma co_close_again s : forall g,
  co_close s = Some g -> co_close (g +:+ ")") = Some g.
Proof.
  induction s as [|c s IH]; intros g; cbn [co_close]; [done|].
  destruct (Char.nonspace c) eqn:Hc; [|done].
  destruct (co_close s) as [t|].
  - intros [= <-]. rewrite app_cons. cbn [co_close].
    by rewrite Hc, (IH t).
  - destruct (Ascii.eqb ")"%char c); [by intros [= <-] | done].
Qed.

Lemma co_text_shape s g :
  co_text s = Some g ->
  ∃ s', drop_while Char.isspace s = "co(" +:+ s' ∧ co_close s' = Some g.
Proof.
  unfold co_text.
  destruct (drop_while Char.isspace s) as [|c1 [|c2 [|c3 s']]]; try done.
  destruct (Ascii.eqb_spec "c"%char c1) as [<-|]; [|done].
  destruct (Ascii.eqb_spec "o"%char c2) as [<-|]; [|done].
  destruct (Ascii.eqb_spec "("%char c3) as [<-|]; [|done].
  cbn [andb]. intros Hg. by exists s'.
Qed.

(** The pattern covers a start of the line. *)
Lemma covered_prefix line : ∃ rest, line = covered line +:+ rest.
Proof.
  unfold covered, space_after_name, factor_token, after_factor, after_name,
    name_token, co_span.
  set (s1 := drop_while Char.nonspace line).
  set (s2 := drop_while Char.isspace s1).
  set (s3 := drop_while Char.digit_or_dot s2).
  assert (∃ rest,
            s3 = match co_text s3 with
                 | Some g => take_while Char.isspace s3 +:+ "co(" +:+ g +:+ ")"
                 | None => EmptyString
                 end +:+ rest) as [rest Hrest].
  { destruct (co_text s3) as [g|] eqn:Hg; [|by exists s3].
    destruct (co_text_shape _ _ Hg) as (s' & Hs' & Hclose).
    destruct (co_close_prefix _ _ Hclose) as [rest ->].
    exists rest. rewrite <- (take_drop_while Char.isspace s3) at 1.
    rewrite Hs', !app_assoc_s. reflexivity. }
  exists rest. rewrite !app_assoc_s, <- Hrest.
  unfold s3. rewrite take_drop_while.
  unfold s2. rewrite take_drop_while.
  unfold s1. by rewrite take_drop_while.
Qed.

(** The text of a [co(...)] clause, as the pattern reads it again. *)
Lemma co_clause_text g s' :
  co_close s' = Some g ->
  all Char.nonspace ("co(" +:+ g +:+ ")") = true
  ∧ co_text ("co(" +:+ g +:+ ")") = Some g.
Proof.
  intros Hg. split.
  - change ("co(" +:+ g +:+ ")")
      with (String "c" (String "o" (String "(" (g +:+ ")")))).
    cbn [all]. rewrite all_app, (co_close_nonspace _ _ Hg). done.
  - unfold co_text.
    change ("co(" +:+ g +:+ ")")
      with (String "c" (String "o" (String "(" (g +:+ ")")))).
    rewrite drop_while_head by done.
    rewrite !Ascii.eqb_refl. cbn [andb]. by eapply co_close_again.
Qed.

(** Reading the covered part of a stripped line again gives the same
    tokens. *)
Lemma covered_tokens line :
  starts Char.isspace line = false ->
  blank_or_comment (strip (covered line)) = blank_or_comment line
  ∧ name_token (strip (covered line)) = name_token line
  ∧ factor_token (strip (covered line)) = factor_token line
  ∧ co_token (strip (covered line)) = co_token line.
Proof.
  intros Hline. destruct line as [|c0 line']; [done|].
  assert (Char.isspace c0 = false) as Hc0 by exact Hline.
  set (line := String c0 line') in *.
  unfold covered, co_token, factor_token, after_factor, after_name,
    space_after_name, name_token.
  set (s1 := drop_while Char.nonspace line).
  set (s2 := drop_while Char.isspace s1).
  set (s3 := drop_while Char.digit_or_dot s2).
  set (tok := take_while Char.digit_or_dot s2).
  set (ws1 := take_while Char.isspace s1).
  assert (take_while Char.nonspace line
          = String c0 (take_while Char.nonspace line')) as Hname.
  { unfold line. cbn [take_while]. unfold Char.nonspace.
    by rewrite Hc0. }
  set (name := take_while Char.nonspace line) in *.
  assert (all Char.nonspace name = true) as Hn by apply all_take_while.
  assert (all Char.isspace ws1 = true) as Hw by apply all_take_while.
  assert (all Char.digit_or_dot tok = true) as Ht by apply all_take_while.
  assert (starts Char.nonspace s1 = false) as Hs1 by apply starts_drop_while.
  assert (starts Char.isspace s2 = false) as Hs2 by apply starts_drop_while.
  assert (starts Char.digit_or_dot s3 = false) as Hs3
    by apply starts_drop_while.
  assert (ws1 = EmptyString -> s3 = EmptyString ∧ tok = EmptyString) as F1.
  { intros E. apply take_while_empty in E. fold s2 in E.
    assert (s1 = EmptyString) as E1.
    { apply neither_starts; [done | by rewrite <- E]. }
    unfold s3, tok. by rewrite E, E1. }
  assert (tok = EmptyString -> take_while Char.isspace s3 = EmptyString)
    as F2.
  { intros E. apply take_while_empty in E. fold s3 in E.
    apply take_while_starts. by rewrite E. }
  assert (forall X, starts Char.isspace (name +:+ X) = false) as Hlstrip.
  { intros X. rewrite Hname. by rewrite app_cons. }
  assert (forall X, blank_or_comment (name +:+ X) = blank_or_comment line)
    as Hblank.
  { intros X. rewrite Hname. by rewrite app_cons. }
  assert (forall Y, starts Char.isspace Y = false -> ws1 ≠ EmptyString ∨ Y = EmptyString ->
            forall X, X = ws1 +:+ Y ->
            take_while Char.nonspace (name +:+ X) = name
            ∧ drop_while Char.isspace (drop_while Char.nonspace (name +:+ X))
              = Y) as Hstep1.
  { intros Y HY Hor X ->.
    assert (starts Char.nonspace (ws1 +:+ Y) = false) as HX.
    { destruct Hor as [Hne| ->].
      - rewrite starts_app by done.
        apply (starts_weaken Char.isspace); [apply space_not_nonspace|].
        by apply starts_all.
      - rewrite app_empty_r. destruct ws1 as [|c w]; [done|].
        cbn [all starts] in *. apply andb_prop in Hw as [Hc _].
        by apply space_not_nonspace. }
    destruct (take_while_all Char.nonspace name _ Hn HX) as [-> ->].
    split; [done|].
    by destruct (take_while_all Char.isspace ws1 Y Hw HY) as [_ ->]. }
  unfold co_span.
  destruct (co_text s3) as [g|] eqn:Hco.
  - (* a [co(...)] clause *)
    destruct (co_text_shape _ _ Hco) as (s' & _ & Hclose).
    destruct (co_clause_text g s' Hclose) as [HT HTco].
    set (T := "co(" +:+ g +:+ ")") in *.
    set (ws2 := take_while Char.isspace s3).
    assert (all Char.isspace ws2 = true) as Hw2 by apply all_take_while.
    assert (starts Char.isspace T = false) as HTs by done.
    assert (starts Char.digit_or_dot T = false) as HTd by done.
    assert (ws1 ≠ EmptyString) as Hw1ne.
    { intros E. destruct (F1 E) as [E3 _]. by rewrite E3 in Hco. }
    assert (strip (name +:+ (ws1 +:+ tok) +:+ ws2 +:+ T)
            = name +:+ (ws1 +:+ (tok +:+ (ws2 +:+ T)))) as ->.
    { unfold strip, lstrip. rewrite drop_while_starts by apply Hlstrip.
      rewrite <- !app_assoc_s. rewrite rstrip_app.
      - by rewrite rstrip_all_nonspace.
      - rewrite rstrip_all_nonspace by done. done. }
    assert (starts Char.digit_or_dot (ws2 +:+ T) = false) as HX3.
    { destruct ws2 as [|c w] eqn:E; [done|]. rewrite app_cons.
      cbn [all starts] in *. apply andb_prop in Hw2 as [Hc _].
      by apply space_not_dd. }
    assert (starts Char.isspace (tok +:+ (ws2 +:+ T)) = false) as HX2.
    { destruct tok as [|c t] eqn:E.
      - rewrite app_empty_l. unfold ws2. by rewrite F2.
      - rewrite app_cons. cbn [all starts] in *.
        apply andb_prop in Ht as [Hc _]. by apply dd_nonspace. }
    destruct (Hstep1 _ HX2 (or_introl Hw1ne) _ eq_refl) as [-> ->].
    destruct (take_while_all Char.digit_or_dot tok _ Ht HX3) as [-> ->].
    split_and!; [apply Hblank|done|done|].
    unfold co_text at 1.
    destruct (take_while_all Char.isspace ws2 T Hw2 HTs) as [_ ->].
    exact HTco.
  - (* no [co(...)] clause *)
    rewrite app_empty_r.
    destruct tok as [|c t] eqn:Etok.
    + (* and no factor: the white space after the name is stripped *)
      rewrite app_empty_r.
      assert (strip (name +:+ ws1) = name) as ->.
      { unfold strip, lstrip. rewrite drop_while_starts by apply Hlstrip.
        rewrite rstrip_app_space by (by apply rstrip_all_space).
        by apply rstrip_all_nonspace. }
      destruct (take_while_all Char.nonspace name EmptyString Hn eq_refl)
        as [Hn1 Hn2].
      rewrite app_empty_r in Hn1, Hn2. rewrite Hn1, Hn2.
      split_and!; [|done|done|done].
      by rewrite <- (Hblank EmptyString), app_empty_r.
    + rewrite <- Etok in *.
      assert (tok ≠ EmptyString) as Htne by (by rewrite Etok).
      assert (ws1 ≠ EmptyString) as Hw1ne.
      { intros E. by destruct (F1 E) as [_ E3]. }
      assert (strip (name +:+ ws1 +:+ tok) = name +:+ (ws1 +:+ tok)) as ->.
      { unfold strip, lstrip. rewrite drop_while_starts by apply Hlstrip.
        rewrite <- app_assoc_s. rewrite rstrip_app.
        - rewrite rstrip_all_nonspace; [by rewrite app_assoc_s|].
          by apply (all_weaken Char.digit_or_dot), Ht; apply dd_is_nonspace.
        - rewrite rstrip_all_nonspace; [done|].
          by apply (all_weaken Char.digit_or_dot), Ht; apply dd_is_nonspace. }
      assert (starts Char.isspace tok = false) as HX2.
      { apply (starts_weaken Char.digit_or_dot); [apply dd_nonspace|].
        by apply starts_all. }
      destruct (Hstep1 _ HX2 (or_introl Hw1ne) _ eq_refl) as [-> ->].
      destruct (take_while_all Char.digit_or_dot tok EmptyString Ht eq_refl)
        as [Ht1 Ht2].
      rewrite app_empty_r in Ht1, Ht2. rewrite Ht1, Ht2.
      split_and!; [apply Hblank|done|done|done].
Qed.

(** What [parse] does with a line, it does with the covered part alone. *)
Lemma classify_covered raw : classify (covered (strip raw)) = classify raw.
Proof.
  assert (starts Char.isspace (strip raw) = false) as Hs.
  { pose proof (strip_head raw) as Hh.
    destruct (strip raw) as [|c s]; [done|]. by apply Hh. }
  destruct (covered_tokens (strip raw) Hs) as (H1 & H2 & H3 & H4).
  unfold classify. by rewrite H1, H2, H3, H4.
Qed.

End ParseFacts.

(** ** The grouping loop *)

Module SplitFacts.
Import Str Re StrFacts ReFacts TransporterParser Tokens.

Lemma derived_type_code name : derived_type name = type_code name.
Proof.
  unfold derived_type. rewrite name_pattern_match.
  destruct (type_code name) as [t|]; [|done].
  simpl. unfold group. by simplify_map_eq.
Qed.

Lemma type_of_with_type t e : type_of (with_type t e) = t.
Proof. by destruct e as [[? ?] ?]. Qed.

Lemma untyped_with_type t e : untyped (with_type t e) = e.
Proof. by destruct e as [[? ?] ?]. Qed.

(** *** Order of first occurrence *)

Lemma elem_of_first_seen t ts : t ∈ first_seen ts <-> t ∈ ts.
Proof.
  induction ts as [|a ts IH]; simpl; [done|].
  rewrite !elem_of_cons, list_elem_of_filter, IH.
  destruct (decide (t = a)); tauto.
Qed.

Lemma NoDup_first_seen ts : NoDup (first_seen ts).
Proof.
  induction ts as [|a ts IH]; simpl; constructor.
  - rewrite list_elem_of_filter. by intros [? _].
  - by apply NoDup_filter.
Qed.

Lemma first_seen_snoc ts t :
  first_seen (ts ++ [t])
  = if decide (t ∈ ts) then first_seen ts else first_seen ts ++ [t].
Proof.
  induction ts as [|a ts IH]; simpl.
  - done.
  - rewrite IH. destruct (decide (t ∈ ts)) as [Hin|Hin].
    + rewrite decide_True; [done|]. by right.
    + rewrite filter_app. destruct (decide (t = a)) as [->|Hne].
      * rewrite decide_True by left.
        rewrite filter_cons, decide_False by (by intros ?).
        by rewrite filter_nil, app_nil_r.
      * rewrite decide_False by (rewrite elem_of_cons; tauto).
        by rewrite filter_cons, decide_True.
Qed.

(** *** The state of the loop *)

Lemma loop_inv_start : loop_inv (∅, []) [].
Proof. split; [done|]. intros t i. simpl. by rewrite lookup_empty. Qed.

Lemma of_type_snoc t tl e :
  of_type t (tl ++ [e])
  = if decide (type_of e = t) then of_type t tl ++ [e] else of_type t tl.
Proof.
  unfold of_type. rewrite filter_app, filter_cons, filter_nil.
  destruct (decide (type_of e = t)); [done | by rewrite app_nil_r].
Qed.

Lemma of_type_none t tl : t ∉ type_of <$> tl -> of_type t tl = [].
Proof.
  intros Hin. unfold of_type.
  induction tl as [|e tl IH]; [done|].
  rewrite fmap_cons, not_elem_of_cons in Hin. destruct Hin as [Hne Hin].
  rewrite filter_cons, decide_False by done. by apply IH.
Qed.

Lemma split_entry_code st entry :
  split_entry st entry =
  match derived_type (name_of entry) with
  | None => inl (SyntaxError_name (name_of entry))
  | Some typ =>
      match st.1 !! typ with
      | None =>
          inr (<[typ := length st.2]> st.1,
               st.2 ++ [[with_type typ entry]])
      | Some i =>
          match st.2 !! i with
          | Some g => inr (st.1, <[i := g ++ [with_type typ entry]]> st.2)
          | None => inl IndexError
          end
      end
  end.
Proof.
  destruct st as [d lol]. unfold split_entry, derived_type, name_of.
  rewrite name_pattern_match.
  destruct (type_code entry.1.1) as [t|]; [|done].
  simpl. unfold group. by simplify_map_eq.
Qed.

(** One more entry, of type [t]: a new group at the end when [t] is
    new, one more entry in the group of [t] otherwise. *)
Lemma split_entry_step st tl entry t :
  loop_inv st tl ->
  derived_type (name_of entry) = Some t ->
  ∃ st', split_entry st entry = inr st'
    ∧ loop_inv st' (tl ++ [with_type t entry])
    ∧ (t ∉ type_of <$> tl -> st'.2 = st.2 ++ [[with_type t entry]])
    ∧ (t ∈ type_of <$> tl ->
       ∃ i, first_seen (type_of <$> tl) !! i = Some t
         ∧ st.2 !! i = Some (of_type t tl)
         ∧ st'.2 = <[i := of_type t tl ++ [with_type t entry]]> st.2).
Proof.
  destruct st as [d lol]. intros [Hlol Hd] Ht. cbn [fst snd] in *.
  rewrite split_entry_code, Ht. cbn [fst snd].
  set (fs := first_seen (type_of <$> tl)) in *.
  set (te := with_type t entry).
  assert (type_of te = t) as Hte by apply type_of_with_type.
  destruct (d !! t) as [i|] eqn:Hdt.
  - (* the type has been seen *)
    apply Hd in Hdt.
    assert (t ∈ type_of <$> tl) as Hin.
    { apply elem_of_first_seen. by eapply list_elem_of_lookup_2. }
    assert (lol !! i = Some (of_type t tl)) as Hg.
    { rewrite Hlol. unfold groups_of. fold fs.
      by rewrite list_lookup_fmap, Hdt. }
    rewrite Hg. eexists. split; [done|]. simpl. split_and!.
    + split; simpl.
      * unfold groups_of. rewrite fmap_app. simpl. rewrite Hte.
        rewrite first_seen_snoc, decide_True by done. fold fs.
        apply list_eq. intros j. rewrite list_lookup_fmap.
        destruct (decide (i = j)) as [<-|Hne].
        -- rewrite list_lookup_insert_eq by (by eapply lookup_lt_Some).
           rewrite Hdt. simpl. by rewrite of_type_snoc, decide_True.
        -- rewrite list_lookup_insert_ne by done.
           rewrite Hlol. unfold groups_of. fold fs.
           rewrite list_lookup_fmap.
           destruct (fs !! j) as [t'|] eqn:Hj; [|done]. simpl.
           rewrite of_type_snoc, decide_False; [done|].
           rewrite Hte. intros <-. apply Hne.
           by eapply NoDup_lookup; [apply NoDup_first_seen|..].
      * intros t' i'. rewrite fmap_app. simpl. rewrite Hte.
        rewrite first_seen_snoc, decide_True by done. apply Hd.
    + intros Hnin. by destruct Hnin.
    + intros _. by exists i.
  - (* a new type *)
    assert (t ∉ type_of <$> tl) as Hnin.
    { intros Hin. apply elem_of_first_seen in Hin.
      apply list_elem_of_lookup_1 in Hin as [i Hi].
      fold fs in Hi. apply Hd in Hi. congruence. }
    assert (t ∉ fs) as Hnfs by (unfold fs; by rewrite elem_of_first_seen).
    eexists. split; [done|]. simpl. split_and!.
    + split; simpl.
      * unfold groups_of. rewrite fmap_app. simpl. rewrite Hte.
        rewrite first_seen_snoc, decide_False by done. fold fs.
        rewrite fmap_app. simpl.
        rewrite of_type_snoc, decide_True by done.
        rewrite of_type_none by done. simpl. f_equal.
        rewrite Hlol. unfold groups_of. fold fs.
        apply list_fmap_ext. intros j t' Hj.
        rewrite of_type_snoc, decide_False; [done|].
        rewrite Hte. intros <-. apply Hnfs.
        by eapply list_elem_of_lookup_2.
      * intros t' i'. rewrite fmap_app. simpl. rewrite Hte.
        rewrite first_seen_snoc, decide_False by done. fold fs.
        assert (length lol = length fs) as ->.
        { rewrite Hlol. unfold groups_of. by rewrite length_fmap. }
        destruct (decide (t = t')) as [<-|Hne].
        -- rewrite lookup_insert_eq. split.
           ++ intros [= <-]. by rewrite list_lookup_middle.
           ++ intros Hi. f_equal.
              destruct (decide (i' < length fs)) as [Hlt|Hge].
              ** rewrite lookup_app_l in Hi by done.
                 destruct Hnfs. by eapply list_elem_of_lookup_2.
              ** apply lookup_lt_Some in Hi.
                 rewrite length_app in Hi. simpl in Hi. lia.
        -- rewrite lookup_insert_ne by done. rewrite Hd. split.
           ++ intros Hi. rewrite lookup_app_l; [done|].
              by eapply lookup_lt_Some.
           ++ intros Hi.
              destruct (decide (i' < length fs)) as [Hlt|Hge].
              ** by rewrite lookup_app_l in Hi.
              ** rewrite lookup_app_r in Hi by lia.
                 destruct (i' - length fs) as [|k]; simpl in Hi;
                   [congruence | by destruct k].
    + done.
    + intros Hin. by destruct Hnin.
Qed.

(** *** The whole loop *)

Lemma typed_entries_untyped l tl :
  typed_entries l = Some tl -> untyped <$> tl = l.
Proof.
  revert tl. induction l as [|e l IH]; intros tl H; simpl in *.
  - by injection H as <-.
  - destruct (derived_type (name_of e)) as [t|]; [|done].
    destruct (typed_entries l) as [tl'|]; [|done].
    injection H as <-. rewrite fmap_cons, untyped_with_type.
    by rewrite (IH tl').
Qed.

Lemma typed_entries_derived l tl :
  typed_entries l = Some tl ->
  Forall (fun e => derived_type (name_of (untyped e)) = Some (type_of e)
                   ∧ e = with_type (type_of e) (untyped e)) tl.
Proof.
  revert tl. induction l as [|e l IH]; intros tl H; simpl in *.
  - injection H as <-. constructor.
  - destruct (derived_type (name_of e)) as [t|] eqn:Ht; [|done].
    destruct (typed_entries l) as [tl'|]; [|done].
    injection H as <-. constructor; [|by apply IH].
    split; [by rewrite untyped_with_type, type_of_with_type|].
    by destruct e as [[? ?] ?].
Qed.

Lemma split_loop_app l1 l2 st :
  split_loop (l1 ++ l2) st =
  match split_loop l1 st with
  | inl e => inl e
  | inr st' => split_loop l2 st'
  end.
Proof.
  revert st. induction l1 as [|e l1 IH]; intros st; simpl; [done|].
  destruct (split_entry st e); [done | apply IH].
Qed.

Lemma split_loop_typed l : forall st tl0 tl,
  loop_inv st tl0 -> typed_entries l = Some tl ->
  ∃ st', split_loop l st = inr st' ∧ loop_inv st' (tl0 ++ tl).
Proof.
  induction l as [|e l IH]; intros st tl0 tl Hinv Htl; simpl in *.
  - injection Htl as <-. exists st. by rewrite app_nil_r.
  - destruct (derived_type (name_of e)) as [t|] eqn:Ht; [|done].
    destruct (typed_entries l) as [tl'|]; [|done].
    injection Htl as <-.
    destruct (split_entry_step st tl0 e t Hinv Ht)
      as (st' & -> & Hinv' & _).
    destruct (IH st' _ tl' Hinv' eq_refl) as (st'' & -> & Hinv'').
    exists st''. by rewrite <- app_assoc in Hinv''.
Qed.

Lemma split_loop_bad before e after : forall st tl0 tlb,
  loop_inv st tl0 -> typed_entries before = Some tlb ->
  derived_type (name_of e) = None ->
  split_loop (before ++ e :: after) st = inl (SyntaxError_name (name_of e)).
Proof.
  intros st tl0 tlb Hinv Hb He. rewrite split_loop_app.
  destruct (split_loop_typed before st tl0 tlb Hinv Hb) as (st' & -> & _).
  simpl. by rewrite split_entry_code, He.
Qed.

Lemma typed_or_bad l :
  (∃ tl, typed_entries l = Some tl)
  ∨ ∃ before e after tlb,
      l = before ++ e :: after
      ∧ typed_entries before = Some tlb
      ∧ derived_type (name_of e) = None.
Proof.
  induction l as [|e l IH]; [left; by exists []|].
  destruct (derived_type (name_of e)) as [t|] eqn:Ht.
  - destruct IH as [[tl Htl]|(before & e' & after & tlb & -> & Hb & He)].
    + left. exists (with_type t e :: tl). simpl. by rewrite Ht, Htl.
    + right. exists (e :: before), e', after, (with_type t e :: tlb).
      split; [done|]. split; [|done]. simpl. by rewrite Ht, Hb.
  - right. by exists [], e, l, [].
Qed.

Lemma split_by_type_typed self l tl :
  typed_entries l = Some tl ->
  split_by_type self (Some l) = inr (groups_of tl).
Proof.
  intros Htl. unfold split_by_type.
  destruct (split_loop_typed l (∅, []) [] tl loop_inv_start Htl)
    as ([d lol] & -> & Hlol & _).
  simpl in Hlol. by rewrite Hlol.
Qed.

Lemma split_by_type_inv self l G :
  split_by_type self (Some l) = inr G ->
  ∃ tl, typed_entries l = Some tl ∧ G = groups_of tl.
Proof.
  intros HG.
  destruct (typed_or_bad l)
    as [[tl Htl]|(before & e & after & tlb & -> & Hb & He)].
  - exists tl. split; [done|].
    rewrite (split_by_type_typed self l tl Htl) in HG. congruence.
  - unfold split_by_type in HG.
    by rewrite (split_loop_bad _ _ _ _ _ _ loop_inv_start Hb He) in HG.
Qed.

(** *** The groups *)

Lemma concat_groups (tl : list typed_transporter) : forall ks,
  NoDup ks -> (forall e, e ∈ tl -> type_of e ∈ ks) ->
  concat ((fun t => of_type t tl) <$> ks) ≡ₚ tl.
Proof.
  induction tl as [|x tl IH]; intros ks Hnd Hin.
  - clear. induction ks as [|k ks IH]; [done|]. by simpl.
  - assert (type_of x ∈ ks) as Hx by (apply Hin; left).
    transitivity (x :: concat ((fun t => of_type t tl) <$> ks)).
    2:{ apply Permutation_skip, (IH ks Hnd).
        intros e He. apply Hin. by right. }
    clear IH Hin. induction Hnd as [|k ks Hk Hnd IHks]; [by inversion Hx|].
    rewrite !fmap_cons. simpl.
    unfold of_type at 1. rewrite filter_cons. fold (of_type k tl).
    destruct (decide (type_of x = k)) as [Hxk|Hxk].
    + simpl. do 2 f_equiv. apply reflexive_eq. f_equal.
      apply list_fmap_ext. intros j k' Hk'.
      unfold of_type. rewrite filter_cons, decide_False; [done|].
      intros Heq. apply Hk. rewrite <- Hxk, Heq.
      by eapply list_elem_of_lookup_2.
    + apply elem_of_cons in Hx as [Hx|Hx]; [done|].
      rewrite (IHks Hx). by rewrite Permutation_middle.
Qed.

Lemma groups_of_concat tl : concat (groups_of tl) ≡ₚ tl.
Proof.
  apply concat_groups; [apply NoDup_first_seen|].
  intros e He. apply elem_of_first_seen. by apply list_elem_of_fmap_2.
Qed.

Lemma groups_of_same_type tl g x :
  g ∈ groups_of tl -> x ∈ g ->
  ∃ t, t ∈ first_seen (type_of <$> tl) ∧ g = of_type t tl ∧ type_of x = t.
Proof.
  unfold groups_of. intros (t & -> & Ht)%list_elem_of_fmap Hx.
  exists t. split_and!; [done|done|].
  unfold of_type in Hx. by apply list_elem_of_filter in Hx as [? _].
Qed.

(** *** Underscores *)

Lemma count_drop_while s :
  count "_"%char (drop_while Char.not_underscore s) = count "_"%char s.
Proof.
  induction s as [|c s IH]; [done|]. cbn [drop_while count].
  destruct (Char.not_underscore c) eqn:Hc; [|done].
  rewrite IH. unfold Char.not_underscore in Hc.
  apply negb_true_iff in Hc. rewrite Ascii.eqb_sym in Hc. by rewrite Hc.
Qed.

Lemma count_after_drop s c s1 :
  drop_while Char.not_underscore s = String c s1 ->
  count "_"%char s = S (count "_"%char s1).
Proof.
  intros E. rewrite <- count_drop_while, E.
  assert (c = "_"%char) as ->.
  { apply not_underscore_false,
      (head_drop_while Char.not_underscore s). by rewrite E. }
  cbn [count]. by rewrite Ascii.eqb_refl.
Qed.

Lemma count_no_drop s :
  drop_while Char.not_underscore s = EmptyString -> count "_"%char s = 0.
Proof. intros E. by rewrite <- count_drop_while, E. Qed.

Lemma type_code_count name :
  type_code name = None <-> count "_"%char name < 2.
Proof.
  unfold type_code.
  destruct (drop_while Char.not_underscore name) as [|c1 s1] eqn:E1.
  - rewrite (count_no_drop _ E1). split; [lia|done].
  - rewrite (count_after_drop _ _ _ E1).
    destruct (drop_while Char.not_underscore s1) as [|c2 s2] eqn:E2.
    + rewrite (count_no_drop _ E2). split; [lia|done].
    + rewrite (count_after_drop _ _ _ E2). split; [done|lia].
Qed.

Lemma type_code_between a t rest :
  all Char.not_underscore a = true ->
  all Char.not_underscore t = true ->
  type_code (a +:+ String "_"%char (t +:+ String "_"%char rest)) = Some t.
Proof.
  intros Ha Ht. unfold type_code.
  destruct (take_while_all Char.not_underscore a
              (String "_"%char (t +:+ String "_"%char rest)) Ha)
    as [_ ->]; [done|].
  by destruct (take_while_all Char.not_underscore t
                 (String "_"%char rest) Ht) as [-> ->].
Qed.

Lemma type_code_shape name t :
  type_code name = Some t ->
  ∃ a rest,
    name = a +:+ String "_"%char (t +:+ String "_"%char rest)
    ∧ all Char.not_underscore a = true
    ∧ all Char.not_underscore t = true.
Proof.
  unfold type_code.
  destruct (drop_while Char.not_underscore name) as [|c1 s1] eqn:E1;
    [done|].
  destruct (drop_while Char.not_underscore s1) as [|c2 s2] eqn:E2;
    [done|].
  intros [= <-].
  underscore_head name c1 E1.
  underscore_head s1 c2 E2.
  exists (take_while Char.not_underscore name), s2.
  rewrite <- E2, take_drop_while, <- E1, take_drop_while.
  split_and!; [done|apply all_take_while..].
Qed.

Lemma typed_entries_counts l :
  Forall (fun e => 2 ≤ count "_"%char (name_of e)) l ->
  ∃ tl, typed_entries l = Some tl.
Proof.
  induction 1 as [|e l He _ [tl IH]]; [by exists []|].
  destruct (derived_type (name_of e)) as [t|] eqn:Ht.
  - exists (with_type t e :: tl). simpl. by rewrite Ht, IH.
  - rewrite derived_type_code in Ht. apply type_code_count in Ht. lia.
Qed.

(** Without an argument the entries of the instance are grouped. *)
Lemma split_by_type_default self :
  split_by_type self None = split_by_type self (Some (transporters self)).
Proof. reflexivity. Qed.

(** The file of three lines of the specification, read and grouped. *)
Example end_to_end :
  parse init ["# comment"; "trans_c_glu 1.5 co(trans_n_nh3)"; "trans_n_nh3"]
  = (Parser [("trans_c_glu", Some (3 # 2), Some "trans_n_nh3");
             ("trans_n_nh3", None, None)],
     inr [("trans_c_glu", Some (3 # 2), Some "trans_n_nh3");
          ("trans_n_nh3", None, None)])
  ∧ split_by_type
      (Parser [("trans_c_glu", Some (3 # 2), Some "trans_n_nh3");
               ("trans_n_nh3", None, None)]) None
    = inr [[("c", "trans_c_glu", Some (3 # 2), Some "trans_n_nh3")];
           [("n", "trans_n_nh3", None, None)]].
Proof. split; reflexivity. Qed.

End SplitFacts.

(** ** More on the line loop *)

Module ParseMore.
Import Str Re StrFacts ReFacts TransporterParser Tokens ParseFacts.

Lemma offending_is_content raw tok :
  offending_token raw = Some tok -> blank_or_comment (strip raw) = false.
Proof.
  unfold offending_token. by destruct (blank_or_comment (strip raw)).
Qed.

Lemma skipped_no_entry raw :
  blank_or_comment (strip raw) = true -> entry_of raw = None.
Proof. intros H. unfold entry_of, classify. by rewrite H. Qed.

Lemma skipped_not_offending raw :
  blank_or_comment (strip raw) = true -> offending_token raw = None.
Proof. intros H. unfold offending_token. by rewrite H. Qed.

Lemma content_lines_cons raw lines :
  content_lines (raw :: lines)
  = if blank_or_comment (strip raw) then content_lines lines
    else raw :: content_lines lines.
Proof.
  unfold content_lines. rewrite filter_cons.
  destruct (blank_or_comment (strip raw)); [by rewrite decide_False|].
  by rewrite decide_True.
Qed.

Lemma content_lines_app l1 l2 :
  content_lines (l1 ++ l2) = content_lines l1 ++ content_lines l2.
Proof. apply filter_app. Qed.

Lemma records_content lines : records (content_lines lines) = records lines.
Proof.
  induction lines as [|raw lines IH]; [done|].
  rewrite content_lines_cons. unfold records in *. cbn [omap list_omap].
  destruct (blank_or_comment (strip raw)) eqn:Hb.
  - by rewrite (skipped_no_entry raw Hb).
  - cbn [omap list_omap]. by rewrite IH.
Qed.

Lemma ok_content lines :
  Forall (fun raw => offending_token raw = None) lines ->
  Forall (fun raw => offending_token raw = None) (content_lines lines).
Proof.
  intros Hok. apply Forall_forall. intros raw Hraw.
  unfold content_lines in Hraw. apply list_elem_of_filter in Hraw as [_ Hraw].
  rewrite Forall_forall in Hok. by apply Hok.
Qed.

(** Lines that are read to the end hand the loop over to the rest. *)
Lemma parse_lines_app_ok l1 l2 : forall n acc,
  Forall (fun raw => offending_token raw = None) l1 ->
  parse_lines (l1 ++ l2) n acc
  = parse_lines l2 (n + length l1) (acc ++ records l1).
Proof.
  induction l1 as [|raw l1 IH]; intros n acc Hok.
  - cbn [app length records omap list_omap]. unfold records. simpl.
    by rewrite Nat.add_0_r, app_nil_r.
  - apply Forall_cons in Hok as [Hraw Hok].
    cbn [app parse_lines]. rewrite parse_line_classify.
    rewrite offending_classify in Hraw.
    unfold records, entry_of. cbn [omap list_omap length].
    replace (n + S (length l1)) with (S n + length l1) by lia.
    destruct (classify raw) as [|t|tok]; [| |done].
    + by rewrite IH.
    + rewrite IH by done. by rewrite <- app_assoc.
Qed.

(** The loop from line [k] on is the loop from the first line on, with
    the line number of its exception counted from [k]. *)
Lemma parse_lines_shift lines k acc :
  parse_lines lines k acc
  = ((parse_lines lines 0 acc).1, shift_line k <$> (parse_lines lines 0 acc).2).
Proof.
  destruct (first_offending lines)
    as [Hok|(before & raw & tok & after & -> & Hok & Hbad)].
  - by rewrite !(parse_lines_ok _ _ _ Hok).
  - by rewrite !(parse_lines_err _ _ _ _ _ _ Hok Hbad).
Qed.

(** One entry for each line that is read. *)
Lemma records_per_line lines :
  Forall (fun raw => offending_token raw = None) lines ->
  Forall2 (fun raw t => classify raw = Entry t)
    (content_lines lines) (records lines).
Proof.
  induction 1 as [|raw lines Hraw _ IH]; [constructor|].
  rewrite content_lines_cons. unfold records, entry_of in *.
  cbn [omap list_omap]. rewrite offending_classify in Hraw.
  pose proof (classify_skipped raw) as Hs.
  destruct (classify raw) as [|t|tok] eqn:E; [| |done].
  - destruct Hs as [Hs _]. by rewrite Hs.
  - destruct (blank_or_comment (strip raw)) eqn:Hb.
    + by destruct Hs as [_ Hs]; specialize (Hs eq_refl).
    + constructor; [done | exact IH].
Qed.

End ParseMore.

(** ** Lines written out *)

Module LineMore.
Import Str Re StrFacts ReFacts TransporterParser Tokens ParseFacts.

Lemma drop_while_app_all p w r :
  all p w = true -> drop_while p (w +:+ r) = drop_while p r.
Proof.
  induction w as [|c w IH]; [done|]. rewrite app_cons. cbn [all drop_while].
  by intros [-> Hw]%andb_prop; apply IH.
Qed.

Lemma drop_while_idem p s : drop_while p (drop_while p s) = drop_while p s.
Proof. apply drop_while_starts, starts_drop_while. Qed.

Lemma co_text_drop s : co_text (drop_while Char.isspace s) = co_text s.
Proof. unfold co_text. by rewrite drop_while_idem. Qed.

Lemma name_nonempty name :
  blank_or_comment name = false -> name ≠ EmptyString.
Proof. by destruct name. Qed.

Lemma starts_space_nonspace s :
  all Char.nonspace s = true -> starts Char.isspace s = false.
Proof.
  destruct s as [|c s]; [done|]. cbn [all starts].
  intros [Hc _]%andb_prop. unfold Char.nonspace in Hc.
  by apply negb_true_iff.
Qed.

(** White space around a text that ends with a character that is not
    white is what [strip] takes off. *)
Lemma strip_around pre a t post :
  all Char.isspace pre = true -> all Char.isspace post = true ->
  starts Char.isspace (a +:+ t) = false ->
  all Char.nonspace t = true -> t ≠ EmptyString ->
  strip (pre +:+ (a +:+ t) +:+ post) = a +:+ t.
Proof.
  intros Hpre Hpost Hstart Ht Hne. unfold strip, lstrip.
  rewrite drop_while_app_all by done.
  rewrite drop_while_starts.
  2:{ destruct (a +:+ t) eqn:E; [|done].
      destruct a; [|done]. by rewrite app_empty_l in E. }
  rewrite rstrip_app_space by (by apply rstrip_all_space).
  rewrite rstrip_app; by rewrite rstrip_all_nonspace.
Qed.

(** The tokens of a name, white space, a run of digits and dots, and a
    rest that does not go on with a factor. *)
Lemma line_tokens name ws tok rest :
  all Char.nonspace name = true ->
  all Char.isspace ws = true ->
  all Char.digit_or_dot tok = true ->
  ws ≠ EmptyString ∨ (tok = EmptyString ∧ rest = EmptyString) ->
  starts Char.digit_or_dot rest = false ->
  starts Char.digit_or_dot (drop_while Char.isspace rest) = false ->
  name_token (name +:+ ws +:+ tok +:+ rest) = name
  ∧ factor_token (name +:+ ws +:+ tok +:+ rest) = tok
  ∧ co_token (name +:+ ws +:+ tok +:+ rest) = co_text rest.
Proof.
  intros Hn Hw Ht Hor H1 H2.
  unfold co_token, factor_token, after_factor, after_name, name_token.
  assert (starts Char.nonspace (ws +:+ tok +:+ rest) = false) as Hs.
  { destruct Hor as [Hne|[-> ->]].
    - rewrite starts_app by done.
      apply (starts_weaken Char.isspace); [apply space_not_nonspace|].
      by apply starts_all.
    - rewrite app_empty_r. destruct ws as [|c w]; [done|].
      cbn [all starts] in *. apply andb_prop in Hw as [Hc _].
      by apply space_not_nonspace. }
  destruct (take_while_all Char.nonspace name _ Hn Hs) as [-> ->].
  split; [done|]. rewrite drop_while_app_all by done.
  destruct (decide (tok = EmptyString)) as [->|Hne].
  - rewrite app_empty_l.
    rewrite (take_while_starts _ _ H2), (drop_while_starts _ _ H2).
    split; [done | apply co_text_drop].
  - rewrite drop_while_starts.
    2:{ rewrite starts_app by done.
        apply (starts_weaken Char.digit_or_dot); [apply dd_nonspace|].
        by apply starts_all. }
    by destruct (take_while_all Char.digit_or_dot tok rest Ht H1) as [-> ->].
Qed.

(** A closing bracket at the end of a run is the last one of the run. *)
Lemma co_close_all g :
  all Char.nonspace g = true -> co_close (g +:+ ")") = Some g.
Proof.
  induction g as [|c g IH]; [done|]. rewrite app_cons. cbn [all co_close].
  intros [Hc Hg]%andb_prop. by rewrite Hc, (IH Hg).
Qed.

(** Without a closing bracket in the run there is no clause. *)
Lemma co_close_none c :
  count ")"%char (take_while Char.nonspace c) = 0 -> co_close c = None.
Proof.
  induction c as [|x c IH]; [done|]. cbn [take_while co_close].
  destruct (Char.nonspace x); [|done]. cbn [count].
  destruct (Ascii.eqb ")"%char x); [done|]. intros H. by rewrite IH.
Qed.

Lemma co_text_clause w g :
  all Char.isspace w = true -> all Char.nonspace g = true ->
  co_text (w +:+ "co(" +:+ g +:+ ")") = Some g.
Proof.
  intros Hw Hg. unfold co_text. rewrite drop_while_app_all by done.
  change ("co(" +:+ g +:+ ")")
    with (String "c" (String "o" (String "(" (g +:+ ")")))).
  rewrite drop_while_head by done.
  rewrite !Ascii.eqb_refl. cbn [andb]. by apply co_close_all.
Qed.

Lemma co_text_open w c :
  all Char.isspace w = true ->
  count ")"%char (take_while Char.nonspace c) = 0 ->
  co_text (w +:+ "co(" +:+ c) = None.
Proof.
  intros Hw Hc. unfold co_text. rewrite drop_while_app_all by done.
  change ("co(" +:+ c) with (String "c" (String "o" (String "(" c))).
  rewrite drop_while_head by done.
  rewrite !Ascii.eqb_refl. cbn [andb]. by apply co_close_none.
Qed.

(** What [parse_line] does, from the tokens of the stripped line. *)
Lemma parse_line_tokens n raw acc line name tok co :
  strip raw = line -> blank_or_comment line = false ->
  name_token line = name -> factor_token line = tok -> co_token line = co ->
  parse_line n raw acc
  = if is_empty tok then inr (acc ++ [(name, None, co)])
    else match Float.float tok with
         | Some x => inr (acc ++ [(name, Some x, co)])
         | None => inl (ValueError tok n)
         end.
Proof.
  intros Hs Hb <- <- <-. rewrite parse_line_classify. unfold classify.
  rewrite Hs, Hb. destruct (is_empty _); [done|].
  by destruct (Float.float _).
Qed.

Lemma clause_nonspace g :
  all Char.nonspace g = true -> all Char.nonspace ("co(" +:+ g) = true.
Proof.
  intros Hg. change ("co(" +:+ g) with (String "c" (String "o" (String "(" g))).
  cbn [all]. by rewrite Hg.
Qed.

Lemma blank_app name x :
  blank_or_comment name = false -> blank_or_comment (name +:+ x) = false.
Proof. by destruct name. Qed.

Lemma starts_dd_after_space w t :
  all Char.isspace w = true -> starts Char.digit_or_dot t = false ->
  starts Char.digit_or_dot (w +:+ t) = false.
Proof.
  intros Hw Ht. destruct w as [|c w]; [done|]. rewrite app_cons.
  cbn [all starts] in *. apply andb_prop in Hw as [Hc _].
  by apply space_not_dd.
Qed.

Lemma take_while_id p s : all p s = true -> take_while p s = s.
Proof.
  induction s as [|c s IH]; [done|]. cbn [all take_while].
  intros [-> Hs]%andb_prop. by rewrite IH.
Qed.

(** A name, white space, a run of digits and dots, and a rest that
    starts, after white space, with the letters of a clause. *)
Lemma parse_line_parts n acc pre name ws1 tok ws2 t post :
  all Char.isspace pre = true ->
  blank_or_comment name = false ->
  all Char.nonspace name = true ->
  all Char.isspace ws1 = true ->
  ws1 ≠ EmptyString ->
  all Char.digit_or_dot tok = true ->
  all Char.isspace ws2 = true ->
  all Char.nonspace t = true ->
  all Char.isspace post = true ->
  parse_line n
    (pre +:+ name +:+ ws1 +:+ tok +:+ ws2 +:+ "co(" +:+ t +:+ post) acc
  = if is_empty tok
    then inr (acc ++ [(name, None, co_text (ws2 +:+ "co(" +:+ t))])
    else match Float.float tok with
         | Some x => inr (acc ++ [(name, Some x, co_text (ws2 +:+ "co(" +:+ t))])
         | None => inl (ValueError tok n)
         end.
Proof.
  intros Hpre Hname Hn Hw1 Hne Htok Hw2 Ht Hpost.
  pose proof (clause_nonspace t Ht) as HT.
  assert (starts Char.digit_or_dot ("co(" +:+ t) = false) as HTd by done.
  assert (pre +:+ name +:+ ws1 +:+ tok +:+ ws2 +:+ "co(" +:+ t +:+ post
          = pre +:+ ((name +:+ ws1 +:+ tok +:+ ws2) +:+ ("co(" +:+ t))
              +:+ post) as ->.
  { by rewrite !app_assoc_s. }
  assert (strip (pre +:+ ((name +:+ ws1 +:+ tok +:+ ws2) +:+ ("co(" +:+ t))
                   +:+ post)
          = name +:+ ws1 +:+ tok +:+ ws2 +:+ "co(" +:+ t) as Hstrip.
  { rewrite strip_around; [by rewrite !app_assoc_s|done|done| |done|done].
    rewrite !app_assoc_s, starts_app by (by apply name_nonempty).
    by apply starts_space_nonspace. }
  destruct (line_tokens name ws1 tok (ws2 +:+ "co(" +:+ t) Hn Hw1 Htok)
    as (H1 & H2 & H3).
  - by left.
  - by apply starts_dd_after_space.
  - rewrite drop_while_app_all by done.
    by rewrite drop_while_starts by (by apply starts_space_nonspace).
  - apply (parse_line_tokens n _ acc _ _ _ _ Hstrip); [|done..].
    by apply blank_app.
Qed.

End LineMore.

(** ** The factors [float] rejects *)

Module FloatMore.
Import Str StrFacts.

Lemma digit_not_dot c : Char.isdigit c = true -> Char.isdot c = false.
Proof. by destruct c as [[] [] [] [] [] [] [] []]. Qed.

Lemma dd_cases c :
  Char.digit_or_dot c = true -> Char.isdigit c = false -> Char.isdot c = true.
Proof.
  unfold Char.digit_or_dot, Char.isdot. intros H1 H2. rewrite H2 in H1.
  by rewrite Ascii.eqb_sym.
Qed.

Lemma count_app c s t : count c (s +:+ t) = count c s + count c t.
Proof.
  induction s as [|x s IH]; [done|]. rewrite app_cons. cbn [count].
  rewrite IH. lia.
Qed.

Lemma count_dot_cons c s :
  count "."%char (String c s) = (if Char.isdot c then 1 else 0) + count "."%char s.
Proof. reflexivity. Qed.

Lemma digits_no_dot s : all Char.isdigit s = true -> count "."%char s = 0.
Proof.
  induction s as [|c s IH]; [done|]. rewrite count_dot_cons. cbn [all].
  intros [Hc Hs]%andb_prop. by rewrite (digit_not_dot c Hc), (IH Hs).
Qed.

Lemma not_digits_dot s :
  all Char.digit_or_dot s = true -> all Char.isdigit s = false ->
  1 ≤ count "."%char s.
Proof.
  induction s as [|c s IH]; [done|]. rewrite count_dot_cons. cbn [all].
  intros [Hc Hs]%andb_prop Hd.
  destruct (Char.isdigit c) eqn:E.
  - specialize (IH Hs Hd). lia.
  - rewrite (dd_cases c Hc E). lia.
Qed.

Lemma digits_not_dots s :
  all Char.isdigit s = true -> s ≠ EmptyString -> all Char.isdot s = false.
Proof.
  destruct s as [|c s]; [done|]. cbn [all].
  intros [Hc _]%andb_prop _. by rewrite (digit_not_dot c Hc).
Qed.

(** Of the runs of digits and dots, [float] rejects the empty one, those
    with two dots or more and those without a digit. *)
Lemma float_rejects tok :
  all Char.digit_or_dot tok = true -> tok ≠ EmptyString ->
  Float.float tok = None
  <-> 2 ≤ count "."%char tok ∨ all Char.isdot tok = true.
Proof.
  intros Hdd Hne. unfold Float.float.
  pose proof (take_drop_while Char.isdigit tok) as Htok.
  pose proof (all_take_while Char.isdigit tok) as Hip.
  remember (take_while Char.isdigit tok) as ip eqn:Heq. clear Heq.
  destruct (drop_while Char.isdigit tok) as [|c frac] eqn:E.
  - rewrite app_empty_r in Htok. subst tok.
    rewrite (digits_no_dot ip Hip), (digits_not_dots ip Hip Hne).
    destruct ip; [done|]. cbn [is_empty]. split; [done|]. intros [?|?]; [lia|done].
  - assert (Char.isdigit c = false) as Hc.
    { apply (head_drop_while Char.isdigit tok). by rewrite E. }
    rewrite <- Htok in Hdd. rewrite all_app in Hdd.
    apply andb_prop in Hdd as [_ Hdd]. cbn [all] in Hdd.
    apply andb_prop in Hdd as [Hcd Hfrac].
    pose proof (dd_cases c Hcd Hc) as Hdot.
    assert (Ascii.eqb c "."%char = true) as ->.
    { unfold Char.isdot in Hdot. by rewrite Ascii.eqb_sym. }
    rewrite <- Htok, count_app, all_app, count_dot_cons, Hdot.
    rewrite (digits_no_dot ip Hip). cbn [all]. rewrite Hdot.
    destruct (all Char.isdigit frac) eqn:Hf.
    + rewrite (digits_no_dot frac Hf). cbn [andb].
      destruct ip as [|x ip'] eqn:Eip.
      * destruct frac as [|y frac'] eqn:Ef; [by split; [right|]|].
        cbn [is_empty andb negb].
        rewrite (digits_not_dots _ Hf) by done.
        split; [done|]. intros [?|?]; [lia|done].
      * cbn [is_empty andb negb].
        rewrite (digits_not_dots _ Hip) by done.
        split; [done|]. intros [?|?]; [lia|done].
    + cbn [andb]. pose proof (not_digits_dot frac Hfrac Hf).
      split; [|done]. intros _. left. lia.
Qed.

End FloatMore.

(** ** More on the groups *)

Module SplitMore.
Import Str StrFacts TransporterParser Tokens SplitFacts.

Lemma filter_all_true {A} (P : A -> Prop) `{!∀ x, Decision (P x)} l :
  Forall P l -> filter P l = l.
Proof.
  induction 1 as [|x l Hx _ IH]; [done|].
  by rewrite filter_cons, decide_True, IH.
Qed.

(** The order of first occurrence in a list that goes on. *)
Lemma first_seen_app a b :
  first_seen (a ++ b)
  = first_seen a ++ filter (fun t => t ∉ a) (first_seen b).
Proof.
  induction a as [|x a IH]; simpl.
  - symmetry. apply filter_all_true, Forall_forall.
    intros t _. apply not_elem_of_nil.
  - rewrite IH, filter_app, list_filter_filter. do 2 f_equal.
    apply list_filter_iff. intros t. rewrite not_elem_of_cons. tauto.
Qed.

Lemma first_seen_const k l :
  l ≠ [] -> Forall (fun t => t = k) l -> first_seen l = [k].
Proof.
  intros Hne Hl. induction Hl as [|x l -> _ IH]; [done|]. simpl.
  destruct l as [|y l]; [done|].
  rewrite IH by done. by rewrite filter_cons, decide_False by (by intros ?).
Qed.

Lemma of_type_app t tl1 tl2 :
  of_type t (tl1 ++ tl2) = of_type t tl1 ++ of_type t tl2.
Proof. apply filter_app. Qed.

Lemma of_type_types t tl : Forall (fun e => type_of e = t) (of_type t tl).
Proof.
  apply Forall_forall. intros e He. unfold of_type in He.
  by apply list_elem_of_filter in He as [? _].
Qed.

Lemma of_type_nonempty t tl : t ∈ type_of <$> tl -> of_type t tl ≠ [].
Proof.
  intros (e & -> & He)%list_elem_of_fmap Hnil.
  assert (e ∈ of_type (type_of e) tl) as Hin
    by (unfold of_type; by apply list_elem_of_filter).
  rewrite Hnil in Hin. by apply elem_of_nil in Hin.
Qed.

Lemma of_type_of_type t k tl :
  of_type t (of_type k tl) = if decide (t = k) then of_type k tl else [].
Proof.
  unfold of_type. rewrite list_filter_filter.
  destruct (decide (t = k)) as [->|Hne].
  - apply list_filter_iff. tauto.
  - induction tl as [|e tl IH]; [done|].
    rewrite filter_cons, decide_False; [done|]. intros [? ?]. congruence.
Qed.

Lemma types_of_type k tl :
  Forall (fun t => t = k) (type_of <$> of_type k tl).
Proof.
  apply Forall_fmap. eapply Forall_impl; [apply of_type_types|done].
Qed.

(** Grouping again what has been grouped. *)
Lemma of_type_concat t tl ks :
  NoDup ks ->
  of_type t (concat ((fun k => of_type k tl) <$> ks))
  = if decide (t ∈ ks) then of_type t tl else [].
Proof.
  induction 1 as [|k ks Hk Hnd IH]; [done|].
  rewrite fmap_cons. cbn [concat]. rewrite of_type_app, of_type_of_type, IH.
  destruct (decide (t = k)) as [->|Hne].
  - rewrite decide_False by done. rewrite decide_True by left.
    by rewrite app_nil_r.
  - destruct (decide (t ∈ ks)) as [Hin|Hin].
    + by rewrite decide_True by (by right).
    + rewrite decide_False; [done|]. rewrite elem_of_cons. tauto.
Qed.

Lemma first_seen_concat tl ks :
  NoDup ks -> (forall k, k ∈ ks -> k ∈ type_of <$> tl) ->
  first_seen (type_of <$> concat ((fun k => of_type k tl) <$> ks)) = ks.
Proof.
  induction 1 as [|k ks Hk Hnd IH]; intros Hin; [done|].
  rewrite fmap_cons. cbn [concat]. rewrite fmap_app, first_seen_app.
  rewrite IH by (intros k' Hk'; apply Hin; by right).
  rewrite (first_seen_const k).
  - cbn [app]. f_equal. apply filter_all_true, Forall_forall.
    intros t Ht Htk.
    pose proof (types_of_type k tl) as Hall. rewrite Forall_forall in Hall.
    apply Hall in Htk. by subst t.
  - intros Hnil. apply fmap_nil_inv in Hnil.
    by apply (of_type_nonempty k tl); [apply Hin; left|].
  - apply types_of_type.
Qed.

Lemma groups_of_regroup tl : groups_of (concat (groups_of tl)) = groups_of tl.
Proof.
  unfold groups_of at 1 3. unfold groups_of.
  set (fs := first_seen (type_of <$> tl)).
  rewrite first_seen_concat.
  - apply list_fmap_ext. intros i t Ht.
    rewrite of_type_concat by apply NoDup_first_seen.
    rewrite decide_True; [done|]. by eapply list_elem_of_lookup_2.
  - apply NoDup_first_seen.
  - intros k Hk. by apply elem_of_first_seen.
Qed.

Lemma typed_of_derived tl :
  Forall (fun e => derived_type (name_of (untyped e)) = Some (type_of e)
                   ∧ e = with_type (type_of e) (untyped e)) tl ->
  typed_entries (untyped <$> tl) = Some tl.
Proof.
  induction 1 as [|e tl [He1 He2] _ IH]; [done|].
  rewrite fmap_cons. cbn [typed_entries]. by rewrite He1, IH, <- He2.
Qed.

Lemma typed_entries_app_inv l1 : forall l2 tl,
  typed_entries (l1 ++ l2) = Some tl ->
  ∃ tl1 tl2,
    typed_entries l1 = Some tl1 ∧ typed_entries l2 = Some tl2
    ∧ tl = tl1 ++ tl2.
Proof.
  induction l1 as [|e l1 IH]; intros l2 tl H.
  - by exists [], tl.
  - cbn [app typed_entries] in *.
    destruct (derived_type (name_of e)) as [t|]; [|done].
    destruct (typed_entries (l1 ++ l2)) as [tl'|] eqn:E; [|done].
    injection H as <-.
    destruct (IH l2 tl' E) as (tl1 & tl2 & -> & H2 & ->).
    by exists (with_type t e :: tl1), tl2.
Qed.

(** The groups of a list that goes on: the groups there were, each
    followed by the further entries of its type, and then the groups of
    the types that are new. *)
Lemma groups_of_app tl1 tl2 :
  groups_of (tl1 ++ tl2)
  = zip_with app (groups_of tl1)
      ((fun t => of_type t tl2) <$> first_seen (type_of <$> tl1))
    ++ ((fun t => of_type t tl2)
          <$> filter (fun t => t ∉ type_of <$> tl1)
                (first_seen (type_of <$> tl2))).
Proof.
  unfold groups_of. rewrite fmap_app, first_seen_app, fmap_app. f_equal.
  - rewrite zip_with_fmap_l, zip_with_fmap_r, zip_with_diag.
    apply list_fmap_ext. intros i t _. apply of_type_app.
  - apply list_fmap_ext. intros i t Ht. rewrite of_type_app.
    apply list_elem_of_lookup_2, list_elem_of_filter in Ht as [Ht _].
    by rewrite (of_type_none t tl1).
Qed.

Lemma no_underscore_count t :
  all Char.not_underscore t = true -> count "_"%char t = 0.
Proof.
  induction t as [|c t IH]; [done|]. cbn [all count].
  intros [Hc Ht]%andb_prop. unfold Char.not_underscore in Hc.
  apply negb_true_iff in Hc. rewrite Ascii.eqb_sym in Hc.
  by rewrite Hc, IH.
Qed.

End SplitMore.

(** ** What an entry holds *)

Module EntryMore.
Import Str StrFacts TransporterParser Tokens ParseFacts.

Lemma digits_value_nonneg s : forall acc,
  (0 <= acc)%Z -> (0 <= Float.digits_value acc s)%Z.
Proof.
  induction s as [|c s IH]; intros acc Hacc; [done|].
  cbn [Float.digits_value]. apply IH. unfold Float.digit_value. lia.
Qed.

Lemma decimal_nonneg ip fp : (0 <= Float.decimal ip fp)%Q.
Proof.
  unfold Float.decimal. rewrite Qred_correct. unfold Qle. cbn [Qnum Qden].
  rewrite Z.mul_1_r. change (0 * _)%Z with 0%Z.
  by apply digits_value_nonneg, digits_value_nonneg.
Qed.

Lemma float_nonneg tok x : Float.float tok = Some x -> (0 <= x)%Q.
Proof.
  unfold Float.float.
  destruct (drop_while Char.isdigit tok) as [|c frac].
  - destruct (is_empty _); [done|]. intros [= <-]. apply decimal_nonneg.
  - destruct (_ && _); [|done]. intros [= <-]. apply decimal_nonneg.
Qed.

Lemma co_text_nonspace s g :
  co_text s = Some g -> all Char.nonspace g = true.
Proof.
  intros (s' & _ & Hg)%co_text_shape. by eapply co_close_nonspace.
Qed.

(** The parts of an entry are tokens of its line. *)
Lemma entry_tokens raw t :
  entry_of raw = Some t ->
  all Char.nonspace (name_of t) = true
  ∧ blank_or_comment (name_of t) = false
  ∧ from_option (fun x => (0 <= x)%Q) True t.1.2
  ∧ from_option (fun c => all Char.nonspace c = true) True t.2.
Proof.
  unfold entry_of, classify.
  destruct (blank_or_comment (strip raw)) eqn:Hb; [done|].
  pose proof (strip_head raw) as Hhead.
  set (line := strip raw) in *.
  assert (all Char.nonspace (name_token line) = true) as H1
    by apply all_take_while.
  assert (blank_or_comment (name_token line) = false) as H2.
  { destruct line as [|c0 line']; [done|]. unfold name_token.
    cbn [take_while]. unfold Char.nonspace.
    by rewrite (Hhead c0 eq_refl). }
  assert (from_option (fun c => all Char.nonspace c = true) True
            (co_token line)) as H4.
  { unfold co_token. destruct (co_text _) as [g|] eqn:E; [|done].
    simpl. by eapply co_text_nonspace. }
  destruct (is_empty _); [by intros [= <-]|].
  destruct (Float.float _) as [x|] eqn:E; [|done].
  intros [= <-]. split_and!; [done|done| |done].
  simpl. by eapply float_nonneg.
Qed.

Lemma records_tokens lines :
  Forall (fun t => all Char.nonspace (name_of t) = true
                   ∧ blank_or_comment (name_of t) = false
                   ∧ from_option (fun x => (0 <= x)%Q) True t.1.2
                   ∧ from_option (fun c => all Char.nonspace c = true)
                       True t.2)
    (records lines).
Proof.
  apply Forall_forall. intros t Ht.
  apply list_elem_of_omap in Ht as (raw & _ & Ht). by eapply entry_tokens.
Qed.

End EntryMore.

(** ** Properties of [parse] *)

Import Str Re TransporterParser.

(** C3: when some line that is read (neither blank nor a comment) has a
    factor token, not empty, that [float] rejects, [parse] raises the
    [ValueError] of the first such line: it carries the token of that line
    and its line number, counted from 1 over all lines of the file, blank
    and comment lines included. *)
Theorem parse_rejects_bad_factor (self : parser) (lines : list string)
    (i : nat) (raw tok : string) :
  lines !! i = Some raw ->
  offending_token raw = Some tok ->
  ∃ j raw' tok',
    j ≤ i
    ∧ lines !! j = Some raw'
    ∧ offending_token raw' = Some tok'
    ∧ (∀ j' r, j' < j -> lines !! j' = Some r -> offending_token r = None)
    ∧ (parse self lines).2 = inl (ValueError tok' (S j)).
Proof.
  intros Hi Hbad.
  destruct (ParseFacts.first_offending lines)
    as [Hok|(before & raw' & tok' & after & -> & Hok & Hbad')].
  - rewrite Forall_lookup in Hok. specialize (Hok i raw Hi). congruence.
  - exists (length before), raw', tok'.
    assert (forall j' r, j' < length before ->
              (before ++ raw' :: after) !! j' = Some r ->
              offending_token r = None) as Hfirst.
    { intros j' r Hj' Hr. rewrite lookup_app_l in Hr by done.
      rewrite Forall_lookup in Hok. by eapply Hok. }
    split_and!; [| |done|done|].
    + destruct (decide (length before ≤ i)) as [|Hlt]; [done|].
      rewrite (Hfirst i raw) in Hbad; [done|lia|done].
    + by rewrite list_lookup_middle.
    + unfold parse.
      rewrite (ParseFacts.parse_lines_err _ _ _ _ _ _ Hok Hbad'). done.
Qed.

Lemma parse_rejects_bad_factor_witness :
  ∃ j raw' tok',
    j ≤ 3
    ∧ ["# flux"; "trans_c_glu 1.5"; "  "; "trans_n_nh3 1.2.3 co(x)"] !! j
      = Some raw'
    ∧ offending_token raw' = Some tok'
    ∧ (∀ j' r, j' < j ->
         ["# flux"; "trans_c_glu 1.5"; "  "; "trans_n_nh3 1.2.3 co(x)"] !! j'
         = Some r -> offending_token r = None)
    ∧ (parse init
         ["# flux"; "trans_c_glu 1.5"; "  "; "trans_n_nh3 1.2.3 co(x)"]).2
      = inl (ValueError tok' (S j)).
Proof.
  apply (parse_rejects_bad_factor init _ 3 "trans_n_nh3 1.2.3 co(x)" "1.2.3");
    reflexivity.
Defined.

(** C4, the code at an input the claim speaks of: the second line of this
    file does not have the form of the line grammar (the pattern cannot
    cover the line), and [parse] returns an entry for it instead of raising
    the [SyntaxError] of line 2. *)
Theorem parse_accepts_malformed_line :
  re_fullmatch line_pattern "trans_c_glu 1.5 extra" = None
  ∧ parse init ["# transporters"; "trans_c_glu 1.5 extra"]
    = (Parser [("trans_c_glu", Some (3 # 2), None)],
       inr [("trans_c_glu", Some (3 # 2), None)]).
Proof. split; reflexivity. Qed.

(** C5, as the code has it: a [ValueError] names a token of digits and
    dots. A first line [trans_c_glu 1.2.3] makes [parse] raise the
    [ValueError] of line 1 with the token [1.2.3]; after a first line
    [trans_c_glu abc] a [ValueError] can only come from a later line and
    never names [abc]. *)
Theorem parse_invalid_factor_line (self : parser) (rest : list string) :
  parse self ("trans_c_glu 1.2.3" :: rest) = (self, inl (ValueError "1.2.3" 1))
  ∧ (∀ tok n,
       (parse self ("trans_c_glu abc" :: rest)).2 = inl (ValueError tok n) ->
       1 < n ∧ Str.all Char.digit_or_dot tok = true).
Proof.
  split.
  - unfold parse. by destruct self.
  - intros tok n. unfold parse.
    destruct (ParseFacts.first_offending ("trans_c_glu abc" :: rest))
      as [Hok|(before & raw & tok' & after & Heq & Hok & Hbad)].
    + by rewrite (ParseFacts.parse_lines_ok _ _ _ Hok).
    + rewrite Heq, (ParseFacts.parse_lines_err _ _ _ _ _ _ Hok Hbad).
      simpl. intros [= <- <-]. split.
      * destruct before as [|r before]; simpl in *; [|lia].
        by injection Heq as <- _.
      * rewrite ParseFacts.offending_classify in Hbad.
        unfold Tokens.classify in Hbad.
        destruct (blank_or_comment _); [done|].
        destruct (is_empty _); [done|].
        destruct (Float.float _); [done|]. injection Hbad as <-.
        apply StrFacts.all_take_while.
Qed.

Lemma parse_invalid_factor_line_witness :
  parse init ["trans_c_glu 1.2.3"; "trans_n_nh3"]
  = (init, inl (ValueError "1.2.3" 1))
  ∧ 1 < 2 ∧ Str.all Char.digit_or_dot ".5." = true.
Proof.
  split.
  - apply (parse_invalid_factor_line init ["trans_n_nh3"]).
  - apply (proj2 (parse_invalid_factor_line init ["trans_n_nh3 .5."])
             ".5." 2).
    reflexivity.
Defined.

(** C5, as stated, fails: the file whose only line is [trans_c_glu abc] is
    read without an exception. *)
Lemma parse_abc_no_value_error :
  (parse init ["trans_c_glu abc"]).2 = inr [("trans_c_glu", None, None)]
  ∧ (parse init ["trans_c_glu abc"]).2 ≠ inl (ValueError "abc" 1).
Proof. split; [reflexivity | discriminate]. Qed.

(** C6: [parse] is additive. When the two files, each read by a fresh
    instance, give [r1] and [r2], reading them one after the other without
    [clear] adds [r1 ++ r2] to the instance, whatever it holds: the first
    call returns what the instance held followed by [r1], the second the
    same followed by [r2] as well, which is then the list of the instance;
    on a fresh instance the second call returns [r1 ++ r2]. *)
Theorem parse_additive (self : parser) (lines1 lines2 : list string)
    (r1 r2 : list transporter) :
  (parse init lines1).2 = inr r1 ->
  (parse init lines2).2 = inr r2 ->
  parse self lines1
  = (Parser (transporters self ++ r1), inr (transporters self ++ r1))
  ∧ parse (Parser (transporters self ++ r1)) lines2
    = (Parser (transporters self ++ r1 ++ r2),
       inr (transporters self ++ r1 ++ r2))
  ∧ parse (parse init lines1).1 lines2 = (Parser (r1 ++ r2), inr (r1 ++ r2)).
Proof.
  assert (forall lines r, (parse init lines).2 = inr r ->
            forall acc, parse_lines lines 0 acc = (acc ++ r, None)) as Hrun.
  { intros lines r. unfold parse.
    destruct (ParseFacts.first_offending lines)
      as [Hok|(before & raw & tok & after & -> & Hok & Hbad)].
    - rewrite (ParseFacts.parse_lines_ok _ _ _ Hok). simpl.
      intros [= <-] acc. by apply ParseFacts.parse_lines_ok.
    - by rewrite (ParseFacts.parse_lines_err _ _ _ _ _ _ Hok Hbad). }
  intros H1 H2.
  pose proof (Hrun _ _ H1) as E1. pose proof (Hrun _ _ H2) as E2.
  unfold parse. simpl. split_and!.
  - by rewrite E1.
  - by rewrite E2, app_assoc.
  - rewrite E1. simpl. by rewrite E2.
Qed.

Lemma parse_additive_witness :
  parse (Parser [("old_x_1", None, None)]) ["# one"; "trans_c_glu 1.5"]
  = (Parser ([("old_x_1", None, None)] ++ [("trans_c_glu", Some (3 # 2), None)]),
     inr ([("old_x_1", None, None)] ++ [("trans_c_glu", Some (3 # 2), None)]))
  ∧ parse (Parser ([("old_x_1", None, None)]
                   ++ [("trans_c_glu", Some (3 # 2), None)]))
      ["trans_n_nh3 co(trans_c_glu)"]
    = (Parser ([("old_x_1", None, None)]
               ++ [("trans_c_glu", Some (3 # 2), None)]
               ++ [("trans_n_nh3", None, Some "trans_c_glu")]),
       inr ([("old_x_1", None, None)]
            ++ [("trans_c_glu", Some (3 # 2), None)]
            ++ [("trans_n_nh3", None, Some "trans_c_glu")]))
  ∧ parse (parse init ["# one"; "trans_c_glu 1.5"]).1
      ["trans_n_nh3 co(trans_c_glu)"]
    = (Parser ([("trans_c_glu", Some (3 # 2), None)]
               ++ [("trans_n_nh3", None, Some "trans_c_glu")]),
       inr ([("trans_c_glu", Some (3 # 2), None)]
            ++ [("trans_n_nh3", None, Some "trans_c_glu")])).
Proof.
  apply (parse_additive (Parser [("old_x_1", None, None)])
           ["# one"; "trans_c_glu 1.5"] ["trans_n_nh3 co(trans_c_glu)"]);
    reflexivity.
Defined.

(** C7: when [parse] raises, what it appended stays in the instance.
    The exception is the [ValueError] of some line [j + 1]; the instance
    then holds what it held before the call followed by the entries of the
    [j] lines before that one, as a fresh instance reads them, one for
    each of them that is neither blank nor a comment, and nothing for the
    line [j + 1] itself. *)
Theorem parse_error_keeps_records (self self' : parser)
    (lines : list string) (e : exn) :
  parse self lines = (self', inl e) ->
  ∃ j raw tok recs,
    e = ValueError tok (S j)
    ∧ lines !! j = Some raw
    ∧ offending_token raw = Some tok
    ∧ parse init (take j lines) = (Parser recs, inr recs)
    ∧ length recs = length (content_lines (take j lines))
    ∧ transporters self' = transporters self ++ recs.
Proof.
  unfold parse.
  destruct (ParseFacts.first_offending lines)
    as [Hok|(before & raw & tok & after & -> & Hok & Hbad)].
  - by rewrite (ParseFacts.parse_lines_ok _ _ _ Hok).
  - rewrite (ParseFacts.parse_lines_err _ _ _ _ _ _ Hok Hbad).
    intros [= <- <-].
    exists (length before), raw, tok, (Tokens.records before).
    rewrite take_app_length.
    split_and!; [done| | | | |done].
    + by rewrite list_lookup_middle.
    + done.
    + by rewrite (ParseFacts.parse_lines_ok _ _ _ Hok).
    + by apply ParseFacts.records_length.
Qed.

Lemma parse_error_keeps_records_witness :
  ∃ j raw tok recs,
    ValueError "1..2" 4 = ValueError tok (S j)
    ∧ ["a_c_1 2"; "# note"; "b_n_2 co(a_c_1)"; "c_c_3 1..2"; "d_c_4"] !! j
      = Some raw
    ∧ offending_token raw = Some tok
    ∧ parse init
        (take j ["a_c_1 2"; "# note"; "b_n_2 co(a_c_1)"; "c_c_3 1..2"; "d_c_4"])
      = (Parser recs, inr recs)
    ∧ length recs
      = length (content_lines
          (take j ["a_c_1 2"; "# note"; "b_n_2 co(a_c_1)"; "c_c_3 1..2";
                   "d_c_4"]))
    ∧ transporters
        (Parser [("old_x_1", None, None); ("a_c_1", Some (2 # 1), None);
                 ("b_n_2", None, Some "a_c_1")])
      = transporters (Parser [("old_x_1", None, None)]) ++ recs.
Proof.
  apply (parse_error_keeps_records (Parser [("old_x_1", None, None)]) _
           ["a_c_1 2"; "# note"; "b_n_2 co(a_c_1)"; "c_c_3 1..2"; "d_c_4"]).
  reflexivity.
Defined.

(** C8: the line pattern matches every string, so [parse] ends with the
    list or with a [ValueError] and never with the [SyntaxError] of its
    second handler; a line that is read gives an entry or the [ValueError]
    of [float]; the pattern covers a start of the stripped line and what
    follows is not looked at: the covered part alone is treated as the
    whole line is, and after a name and a blank, text that starts neither a
    factor nor a [co(...)] clause changes nothing; the line
    [trans_c_glu abc] gives the entry [(trans_c_glu, None, None)]. *)
Theorem line_pattern_never_fails (self : parser) (lines : list string)
    (n : nat) (raw : string) (acc : list transporter) :
  is_Some (re_match line_pattern raw)
  ∧ ((∃ recs, (parse self lines).2 = inr recs)
     ∨ (∃ tok k, (parse self lines).2 = inl (ValueError tok k)))
  ∧ (blank_or_comment (strip raw) = false ->
     (∃ t, parse_line n raw acc = inr (acc ++ [t]))
     ∨ (∃ tok, parse_line n raw acc = inl (ValueError tok n)
               ∧ offending_token raw = Some tok))
  ∧ (∃ covered rest,
       re_match_text line_pattern (strip raw) = Some covered
       ∧ strip raw = covered +:+ rest
       ∧ parse_line n covered acc = parse_line n raw acc)
  ∧ (∀ name junk c,
       blank_or_comment name = false ->
       Str.all Char.nonspace name = true ->
       Str.head junk = Some c ->
       Char.isspace c = false ->
       Char.digit_or_dot c = false ->
       Ascii.eqb "c"%char c = false ->
       parse_line n (name +:+ " " +:+ junk) acc
       = inr (acc ++ [(name, None, None)]))
  ∧ parse self ["trans_c_glu abc"]
    = (Parser (transporters self ++ [("trans_c_glu", None, None)]),
       inr (transporters self ++ [("trans_c_glu", None, None)])).
Proof.
  split_and!.
  - rewrite ReFacts.line_pattern_match. by eexists.
  - unfold parse.
    destruct (ParseFacts.first_offending lines)
      as [Hok|(before & r & tok & after & -> & Hok & Hbad)].
    + rewrite (ParseFacts.parse_lines_ok _ _ _ Hok). left. by eexists.
    + rewrite (ParseFacts.parse_lines_err _ _ _ _ _ _ Hok Hbad).
      right. by do 2 eexists.
  - intros Hread. rewrite ParseFacts.parse_line_classify,
      ParseFacts.offending_classify.
    pose proof (ParseFacts.classify_skipped raw) as Hs.
    destruct (Tokens.classify raw) as [|t|tok].
    + destruct Hs as [Hs _]. rewrite Hs in Hread; done.
    + left. by eexists.
    + right. by eexists.
  - destruct (ParseFacts.covered_prefix (strip raw)) as [rest Hrest].
    exists (Tokens.covered (strip raw)), rest.
    split_and!; [apply ReFacts.line_pattern_text | done |].
    by rewrite !ParseFacts.parse_line_classify, ParseFacts.classify_covered.
  - intros name junk c H1 H2 H3 H4 H5 H6.
    by rewrite ParseFacts.parse_line_classify,
      (ParseFacts.classify_trailing name junk c).
  - unfold parse. by destruct self.
Qed.

Lemma line_pattern_never_fails_witness :
  ((∃ t, parse_line 7 "trans_n_nh3 .5 co(a) b" [] = inr ([] ++ [t]))
   ∨ (∃ tok, parse_line 7 "trans_n_nh3 .5 co(a) b" []
             = inl (ValueError tok 7)
             ∧ offending_token "trans_n_nh3 .5 co(a) b" = Some tok))
  ∧ parse_line 7 ("trans_c_glu" +:+ " " +:+ "is the main source ") []
    = inr ([] ++ [("trans_c_glu", None, None)]).
Proof.
  split.
  - apply (proj1 (proj2 (proj2
      (line_pattern_never_fails init [] 7 "trans_n_nh3 .5 co(a) b" [])))).
    reflexivity.
  - apply (proj1 (proj2 (proj2 (proj2 (proj2
      (line_pattern_never_fails init [] 7 "trans_n_nh3 .5 co(a) b" [])))))
      "trans_c_glu" "is the main source " "i"%char); reflexivity.
Defined.

(** C9: whatever [parse] appends has a name that is not empty: the
    instance afterwards holds what it held before followed by entries
    with such names, also when the call raises. *)
Theorem parse_names_nonempty (self : parser) (lines : list string) :
  ∃ new,
    transporters (parse self lines).1 = transporters self ++ new
    ∧ Forall (fun t => Str.is_empty (name_of t) = false) new.
Proof.
  assert (forall ls, Forall (fun t => is_empty (name_of t) = false)
                       (Tokens.records ls)) as Hnames.
  { intros ls. eapply Forall_impl; [apply ParseFacts.records_names|].
    intros t. apply StrFacts.is_empty_false. }
  unfold parse.
  destruct (ParseFacts.first_offending lines)
    as [Hok|(before & r & tok & after & -> & Hok & Hbad)].
  - rewrite (ParseFacts.parse_lines_ok _ _ _ Hok). by eexists.
  - rewrite (ParseFacts.parse_lines_err _ _ _ _ _ _ Hok Hbad). by eexists.
Qed.

(** ** Properties of [split_by_type] *)

(** C1: the groups come in the order in which their type codes first
    occur in the input, and each group holds the entries of its type in
    the order of the input. Said one entry at a time: an entry whose type
    code has not occurred starts a new group at the end, and an entry
    whose type code has occurred goes to the end of the group of that
    code. Entries [a], [b], [c] of types [X], [Y], [X] give
    [[a; c]; [b]]. *)
Theorem split_by_type_order_preserving (self : parser)
    (l : list transporter) (G : list (list typed_transporter)) :
  split_by_type self (Some l) = inr G ->
  ∃ tl,
    typed_entries l = Some tl
    ∧ G = (fun t => of_type t tl) <$> first_seen (type_of <$> tl)
    ∧ (∀ entry t,
         derived_type (name_of entry) = Some t ->
         (t ∉ type_of <$> tl ->
          split_by_type self (Some (l ++ [entry]))
          = inr (G ++ [[with_type t entry]]))
         ∧ (t ∈ type_of <$> tl ->
            ∃ i, first_seen (type_of <$> tl) !! i = Some t
              ∧ G !! i = Some (of_type t tl)
              ∧ split_by_type self (Some (l ++ [entry]))
                = inr (<[i := of_type t tl ++ [with_type t entry]]> G)))
    ∧ (∀ a b c X Y,
         derived_type (name_of a) = Some X ->
         derived_type (name_of b) = Some Y ->
         derived_type (name_of c) = Some X ->
         X ≠ Y ->
         split_by_type self (Some [a; b; c])
         = inr [[with_type X a; with_type X c]; [with_type Y b]]).
Proof.
  intros HG.
  destruct (SplitFacts.split_by_type_inv self l G HG) as (tl & Htl & ->).
  exists tl. split_and!; [done|done| |].
  - intros entry t Ht.
    destruct (SplitFacts.split_loop_typed l (∅, []) [] tl
                SplitFacts.loop_inv_start Htl) as (st & Hloop & Hinv).
    rewrite app_nil_l in Hinv.
    destruct (SplitFacts.split_entry_step st tl entry t Hinv Ht)
      as (st' & Hstep & _ & Hnew & Hold).
    assert (split_by_type self (Some (l ++ [entry])) = inr st'.2) as ->.
    { unfold split_by_type. rewrite SplitFacts.split_loop_app, Hloop.
      simpl. rewrite Hstep. by destruct st'. }
    destruct Hinv as [Hst _]. rewrite Hst in Hnew, Hold. split.
    + intros Hnin. by rewrite Hnew.
    + intros Hin. destruct (Hold Hin) as (i & Hi & Hg & ->). by exists i.
  - intros a b c X Y Ha Hb Hc HXY. unfold split_by_type.
    cbn [split_loop]. rewrite SplitFacts.split_entry_code, Ha.
    cbn [fst snd]. rewrite lookup_empty.
    rewrite SplitFacts.split_entry_code, Hb. cbn [fst snd].
    rewrite lookup_insert_ne, lookup_empty by done.
    rewrite SplitFacts.split_entry_code, Hc. cbn [fst snd].
    rewrite lookup_insert_ne, lookup_insert_eq by done.
    done.
Qed.

Lemma split_by_type_order_preserving_witness :
  ∃ tl,
    typed_entries
      [("t_c_glc", Some (3 # 2), None); ("t_n_nh3", None, None);
       ("t_c_ac", None, Some "t_n_nh3"); ("t_n_no3", None, None)]
    = Some tl
    ∧ [[("c", "t_c_glc", Some (3 # 2), None);
        ("c", "t_c_ac", None, Some "t_n_nh3")];
       [("n", "t_n_nh3", None, None); ("n", "t_n_no3", None, None)]]
      = (fun t => of_type t tl) <$> first_seen (type_of <$> tl).
Proof.
  assert (split_by_type init
            (Some [("t_c_glc", Some (3 # 2), None); ("t_n_nh3", None, None);
                   ("t_c_ac", None, Some "t_n_nh3");
                   ("t_n_no3", None, None)])
          = inr [[("c", "t_c_glc", Some (3 # 2), None);
                  ("c", "t_c_ac", None, Some "t_n_nh3")];
                 [("n", "t_n_nh3", None, None);
                  ("n", "t_n_no3", None, None)]]) as H by reflexivity.
  destruct (split_by_type_order_preserving _ _ _ H) as (tl & H1 & H2 & _).
  by exists tl.
Defined.

(** C2: when [split_by_type] returns, the entries of its groups, their
    type codes taken off, are the entries of the input, each as often as
    it occurs there; every entry of a group is an entry with the type code
    of its name in front, name, factor and cotransporter as they were; and
    the entries of one group have the same type code. *)
Theorem split_by_type_keeps_records (self : parser) (l : list transporter)
    (G : list (list typed_transporter)) :
  split_by_type self (Some l) = inr G ->
  untyped <$> concat G ≡ₚ l
  ∧ Forall (fun e => derived_type (name_of (untyped e)) = Some (type_of e)
                     ∧ e = with_type (type_of e) (untyped e)) (concat G)
  ∧ Forall (fun g => ∀ x y, x ∈ g -> y ∈ g -> type_of x = type_of y) G.
Proof.
  intros HG.
  destruct (SplitFacts.split_by_type_inv self l G HG) as (tl & Htl & ->).
  pose proof (SplitFacts.groups_of_concat tl) as Hperm.
  split_and!.
  - rewrite Hperm. by rewrite (SplitFacts.typed_entries_untyped l tl).
  - rewrite Hperm. by apply (SplitFacts.typed_entries_derived l).
  - apply Forall_forall. intros g Hg x y Hx Hy.
    destruct (SplitFacts.groups_of_same_type tl g x Hg Hx)
      as (t & _ & Heq & <-).
    rewrite Heq in Hy. unfold of_type in Hy.
    by apply list_elem_of_filter in Hy as [-> _].
Qed.

Lemma split_by_type_keeps_records_witness :
  untyped <$> concat [[("c", "t_c_glc", Some (3 # 2), None);
                       ("c", "t_c_glc", Some (3 # 2), None)];
                      [(EmptyString, "t__nh3", None, Some "t_c_glc")]]
  ≡ₚ [("t_c_glc", Some (3 # 2), None); ("t__nh3", None, Some "t_c_glc");
      ("t_c_glc", Some (3 # 2), None)]
  ∧ Forall (fun e => derived_type (name_of (untyped e)) = Some (type_of e)
                     ∧ e = with_type (type_of e) (untyped e))
      (concat [[("c", "t_c_glc", Some (3 # 2), None);
                ("c", "t_c_glc", Some (3 # 2), None)];
               [(EmptyString, "t__nh3", None, Some "t_c_glc")]])
  ∧ Forall (fun g => ∀ x y, x ∈ g -> y ∈ g -> type_of x = type_of y)
      [[("c", "t_c_glc", Some (3 # 2), None);
        ("c", "t_c_glc", Some (3 # 2), None)];
       [(EmptyString, "t__nh3", None, Some "t_c_glc")]].
Proof.
  apply (split_by_type_keeps_records init
           [("t_c_glc", Some (3 # 2), None); ("t__nh3", None, Some "t_c_glc");
            ("t_c_glc", Some (3 # 2), None)]).
  reflexivity.
Defined.

(** C10: the name pattern asks for a second underscore. A name has a type
    code exactly when it holds two underscores or more, and the type code
    is the text between the first and the second, which may be empty.
    [split_by_type] raises the [SyntaxError] that names the first entry
    with fewer than two underscores, as it does for [a_b]. *)
Theorem split_by_type_needs_second_underscore (self : parser) :
  (∀ before entry after,
     Forall (fun e => 2 ≤ Str.count "_"%char (name_of e)) before ->
     Str.count "_"%char (name_of entry) < 2 ->
     split_by_type self (Some (before ++ entry :: after))
     = inl (SyntaxError_name (name_of entry)))
  ∧ (∀ name, derived_type name = None <-> Str.count "_"%char name < 2)
  ∧ (∀ a t rest,
       Str.all Char.not_underscore a = true ->
       Str.all Char.not_underscore t = true ->
       derived_type (a +:+ "_" +:+ t +:+ "_" +:+ rest) = Some t)
  ∧ (∀ name t,
       derived_type name = Some t ->
       ∃ a rest,
         name = a +:+ "_" +:+ t +:+ "_" +:+ rest
         ∧ Str.all Char.not_underscore a = true
         ∧ Str.all Char.not_underscore t = true)
  ∧ split_by_type self (Some [("a_b", None, None)])
    = inl (SyntaxError_name "a_b").
Proof.
  split_and!.
  - intros before entry after Hb He.
    destruct (SplitFacts.typed_entries_counts before Hb) as [tlb Htlb].
    unfold split_by_type.
    rewrite (SplitFacts.split_loop_bad before entry after (∅, []) [] tlb
               SplitFacts.loop_inv_start Htlb); [done|].
    rewrite SplitFacts.derived_type_code.
    by apply SplitFacts.type_code_count.
  - intros name. rewrite SplitFacts.derived_type_code.
    apply SplitFacts.type_code_count.
  - intros a t rest Ha Ht. rewrite SplitFacts.derived_type_code.
    exact (SplitFacts.type_code_between a t rest Ha Ht).
  - intros name t. rewrite SplitFacts.derived_type_code.
    exact (SplitFacts.type_code_shape name t).
  - reflexivity.
Qed.

Lemma split_by_type_needs_second_underscore_witness :
  split_by_type init
    (Some ([("t_c_glc", None, None); ("t__x", Some (1 # 2), None)]
           ++ ("a_b", None, None) :: [("noUnderscore", None, None)]))
  = inl (SyntaxError_name (name_of ("a_b", None, None)))
  ∧ derived_type ("trans" +:+ "_" +:+ "c" +:+ "_" +:+ "glu_6") = Some "c"
  ∧ ∃ a rest,
      "x__y" = a +:+ "_" +:+ EmptyString +:+ "_" +:+ rest
      ∧ Str.all Char.not_underscore a = true
      ∧ Str.all Char.not_underscore EmptyString = true.
Proof.
  split_and!.
  - apply (proj1 (split_by_type_needs_second_underscore init)).
    + repeat constructor.
    + simpl. lia.
  - apply (proj1 (proj2 (proj2 (split_by_type_needs_second_underscore init))));
      reflexivity.
  - apply (proj1 (proj2 (proj2 (proj2
             (split_by_type_needs_second_underscore init)))) "x__y").
    reflexivity.
Defined.

(** * Further properties *)

(** ** [clear] and [parse] *)

(** X1: what [parse] appends and what it raises do not depend on what
    the instance holds: the instance afterwards holds what it held
    followed by what a fresh instance holds after the same file, the
    exception is the one a fresh instance raises, and the list returned is
    the one a fresh instance returns behind what the instance held. After
    [clear] the instance is a fresh one. *)
Theorem parse_frame (self : parser) (lines : list string) :
  parse self lines
  = (Parser (transporters self ++ transporters (parse init lines).1),
     match (parse init lines).2 with
     | inl e => inl e
     | inr r => inr (transporters self ++ r)
     end)
  ∧ parse (clear self) lines = parse init lines.
Proof.
  split; [|done]. unfold parse. cbn [transporters init].
  destruct (ParseFacts.first_offending lines)
    as [Hok|(before & raw & tok & after & -> & Hok & Hbad)].
  - by rewrite !(ParseFacts.parse_lines_ok _ _ _ Hok).
  - by rewrite !(ParseFacts.parse_lines_err _ _ _ _ _ _ Hok Hbad).
Qed.

(** X2: when [parse] returns, the list of a fresh instance holds one
    entry for each line that is neither blank nor a comment, in the order
    of the lines, and each entry is the one its line gives wherever the
    line stands. *)
Theorem parse_one_entry_per_line (lines : list string)
    (r : list transporter) :
  (parse init lines).2 = inr r ->
  Forall2 (fun raw t => ∀ n acc, parse_line n raw acc = inr (acc ++ [t]))
    (content_lines lines) r.
Proof.
  unfold parse. cbn [transporters init].
  destruct (ParseFacts.first_offending lines)
    as [Hok|(before & raw & tok & after & -> & Hok & Hbad)].
  - rewrite (ParseFacts.parse_lines_ok _ _ _ Hok). intros [= <-].
    eapply Forall2_impl; [by apply ParseMore.records_per_line|].
    intros raw t Ht n acc. by rewrite ParseFacts.parse_line_classify, Ht.
  - by rewrite (ParseFacts.parse_lines_err _ _ _ _ _ _ Hok Hbad).
Qed.

Lemma parse_one_entry_per_line_witness :
  Forall2 (fun raw t => ∀ n acc, parse_line n raw acc = inr (acc ++ [t]))
    (content_lines ["# c"; " a_c_1  2."; "  "; "b_n_2 co(a_c_1)"; "#x 1..2"])
    [("a_c_1", Some (2 # 1), None); ("b_n_2", None, Some "a_c_1")].
Proof.
  apply (parse_one_entry_per_line
           ["# c"; " a_c_1  2."; "  "; "b_n_2 co(a_c_1)"; "#x 1..2"]).
  reflexivity.
Defined.

(** X3: blank and comment lines only count for line numbers. Without
    them, [parse] leaves the same list in the instance and returns or
    raises the same, but for the line number of a [ValueError], which is
    then the number of the failing line among the lines that are read. *)
Theorem parse_content_lines (self : parser) (lines : list string) :
  (parse self (content_lines lines)).1 = (parse self lines).1
  ∧ (parse self (content_lines lines)).2
    = match (parse self lines).2 with
      | inl (ValueError tok n) =>
          inl (ValueError tok (length (content_lines (take n lines))))
      | other => other
      end.
Proof.
  unfold parse.
  destruct (ParseFacts.first_offending lines)
    as [Hok|(before & raw & tok & after & -> & Hok & Hbad)].
  - rewrite (ParseFacts.parse_lines_ok _ _ _ Hok).
    rewrite (ParseFacts.parse_lines_ok _ _ _ (ParseMore.ok_content _ Hok)).
    by rewrite ParseMore.records_content.
  - rewrite (ParseFacts.parse_lines_err _ _ _ _ _ _ Hok Hbad).
    rewrite ParseMore.content_lines_app, ParseMore.content_lines_cons.
    rewrite (ParseMore.offending_is_content _ _ Hbad).
    rewrite (ParseFacts.parse_lines_err _ _ _ _ _ _
               (ParseMore.ok_content _ Hok) Hbad).
    rewrite ParseMore.records_content. cbn [fst snd]. split; [done|].
    replace (before ++ raw :: after) with ((before ++ [raw]) ++ after)
      by (by rewrite <- app_assoc).
    rewrite take_app_length' by (rewrite length_app; simpl; lia).
    rewrite ParseMore.content_lines_app, length_app.
    rewrite (ParseMore.content_lines_cons raw []).
    rewrite (ParseMore.offending_is_content _ _ Hbad).
    do 2 f_equal. simpl. lia.
Qed.

(** X4: a file in two parts. When the first part alone makes [parse]
    raise, the whole file does exactly what the first part does: nothing
    after the failing line is read. Otherwise the whole file does what the
    second part does read after the first without [clear], the line number
    of an exception counted on from the lines of the first part. *)
Theorem parse_app (self : parser) (l1 l2 : list string) :
  parse self (l1 ++ l2)
  = match (parse self l1).2 with
    | inl _ => parse self l1
    | inr _ =>
        ((parse (parse self l1).1 l2).1,
         match (parse (parse self l1).1 l2).2 with
         | inl e => inl (shift_line (length l1) e)
         | inr r => inr r
         end)
    end.
Proof.
  unfold parse.
  destruct (ParseFacts.first_offending l1)
    as [Hok|(before & raw & tok & after & -> & Hok & Hbad)].
  - rewrite (ParseMore.parse_lines_app_ok _ _ _ _ Hok).
    rewrite (ParseFacts.parse_lines_ok _ _ _ Hok). cbn [fst snd transporters].
    rewrite ParseMore.parse_lines_shift.
    destruct (parse_lines l2 0 _) as [acc [e|]]; reflexivity.
  - rewrite <- app_assoc. cbn [app].
    by rewrite !(ParseFacts.parse_lines_err _ _ _ _ _ _ Hok Hbad).
Qed.


(** ** The form of a line *)

(** X5: a line that holds a name, white space, a factor (a run of digits
    and dots, possibly empty), white space or none, and a clause
    [co(...)], with any white space around it, gives the entry with this
    name, the factor as [float] reads it (none when the run is empty) and
    the text of the clause, or the [ValueError] of [float] for the run.
    The text of the clause may be empty and may hold brackets. *)
Theorem parse_line_with_clause (n : nat) (acc : list transporter)
    (pre name ws1 tok ws2 coname post : string) :
  Str.all Char.isspace pre = true ->
  blank_or_comment name = false ->
  Str.all Char.nonspace name = true ->
  Str.all Char.isspace ws1 = true ->
  Str.is_empty ws1 = false ->
  Str.all Char.digit_or_dot tok = true ->
  Str.all Char.isspace ws2 = true ->
  Str.all Char.nonspace coname = true ->
  Str.all Char.isspace post = true ->
  parse_line n
    (pre +:+ name +:+ ws1 +:+ tok +:+ ws2 +:+ "co(" +:+ coname +:+ ")"
     +:+ post) acc
  = if Str.is_empty tok then inr (acc ++ [(name, None, Some coname)])
    else match Float.float tok with
         | Some x => inr (acc ++ [(name, Some x, Some coname)])
         | None => inl (ValueError tok n)
         end.
Proof.
  intros Hpre Hname Hn Hw1 Hne Htok Hw2 Hco Hpost.
  apply StrFacts.is_empty_false in Hne.
  rewrite <- (StrFacts.app_assoc_s coname ")" post).
  rewrite (LineMore.parse_line_parts n acc pre name ws1 tok ws2
             (coname +:+ ")") post); try done.
  - by rewrite (LineMore.co_text_clause ws2 coname).
  - by rewrite StrFacts.all_app, Hco.
Qed.

Lemma parse_line_with_clause_witness :
  parse_line 3 ("  " +:+ "trans_c_glu" +:+ " " +:+ "1.5" +:+ EmptyString
                +:+ "co(" +:+ "nh3(aq)" +:+ ")" +:+ " ")
    [("old_x_1", None, None)]
  = if Str.is_empty "1.5"
    then inr ([("old_x_1", None, None)]
              ++ [("trans_c_glu", None, Some "nh3(aq)")])
    else match Float.float "1.5" with
         | Some x => inr ([("old_x_1", None, None)]
                          ++ [("trans_c_glu", Some x, Some "nh3(aq)")])
         | None => inl (ValueError "1.5" 3)
         end.
Proof.
  apply (parse_line_with_clause 3 [("old_x_1", None, None)]
           "  " "trans_c_glu" " " "1.5" EmptyString "nh3(aq)" " ");
    reflexivity.
Defined.

(** X6: a line that holds a name and, after white space, a factor (a run
    of digits and dots), or a name alone, with any white space around it,
    gives the entry with this name, the factor as [float] reads it (none
    without a run) and no cotransporter, or the [ValueError] of [float]
    for the run. Whatever holds no white space is a name: digits, dots
    and the letters of a clause too. *)
Theorem parse_line_name_factor (n : nat) (acc : list transporter)
    (pre name ws tok post : string) :
  Str.all Char.isspace pre = true ->
  blank_or_comment name = false ->
  Str.all Char.nonspace name = true ->
  Str.all Char.isspace ws = true ->
  Str.is_empty tok || negb (Str.is_empty ws) = true ->
  Str.all Char.digit_or_dot tok = true ->
  Str.all Char.isspace post = true ->
  parse_line n (pre +:+ name +:+ ws +:+ tok +:+ post) acc
  = if Str.is_empty tok then inr (acc ++ [(name, None, None)])
    else match Float.float tok with
         | Some x => inr (acc ++ [(name, Some x, None)])
         | None => inl (ValueError tok n)
         end.
Proof.
  intros Hpre Hname Hn Hw Hor Htok Hpost.
  pose proof (LineMore.name_nonempty name Hname) as Hne.
  destruct (decide (tok = EmptyString)) as [->|Htne].
  - (* a name alone: the white space after it is stripped *)
    assert (strip (pre +:+ name +:+ ws +:+ EmptyString +:+ post) = name)
      as Hstrip.
    { change (pre +:+ name +:+ ws +:+ EmptyString +:+ post)
        with (pre +:+ (EmptyString +:+ name) +:+ ws +:+ post).
      apply (LineMore.strip_around pre EmptyString name (ws +:+ post));
        try done.
      - by rewrite StrFacts.all_app, Hw, Hpost.
      - by apply LineMore.starts_space_nonspace. }
    destruct (LineMore.line_tokens name EmptyString EmptyString EmptyString
                Hn eq_refl eq_refl) as (H1 & H2 & H3); [by right|done|done|].
    change (name +:+ EmptyString +:+ EmptyString +:+ EmptyString)
      with (name +:+ EmptyString) in H1, H2, H3.
    rewrite StrFacts.app_empty_r in H1, H2, H3.
    by rewrite (LineMore.parse_line_tokens n _ acc _ _ _ _
                  Hstrip Hname H1 H2 H3).
  - assert (ws ≠ EmptyString) as Hwne.
    { destruct tok; [done|]. destruct ws; [done|done]. }
    assert (strip (pre +:+ name +:+ ws +:+ tok +:+ post)
            = name +:+ ws +:+ tok) as Hstrip.
    { rewrite <- (StrFacts.app_assoc_s ws tok post).
      rewrite <- (StrFacts.app_assoc_s name (ws +:+ tok) post).
      rewrite <- (StrFacts.app_assoc_s name ws tok).
      rewrite LineMore.strip_around; try done.
      - rewrite StrFacts.app_assoc_s, StrFacts.starts_app by done.
        by apply LineMore.starts_space_nonspace.
      - by apply (ParseFacts.all_weaken Char.digit_or_dot), Htok;
          apply ParseFacts.dd_is_nonspace. }
    destruct (LineMore.line_tokens name ws tok EmptyString Hn Hw Htok)
      as (H1 & H2 & H3); [by left|done|done|].
    rewrite StrFacts.app_empty_r in H1, H2, H3.
    rewrite (LineMore.parse_line_tokens n _ acc _ _ _ _ Hstrip
               (LineMore.blank_app _ _ Hname) H1 H2 H3).
    done.
Qed.

Lemma parse_line_name_factor_witness :
  parse_line 1 (" " +:+ "co(1.5)" +:+ "  " +:+ EmptyString +:+ " ") []
  = (if Str.is_empty EmptyString then inr ([] ++ [("co(1.5)", None, None)])
     else match Float.float EmptyString with
          | Some x => inr ([] ++ [("co(1.5)", Some x, None)])
          | None => inl (ValueError EmptyString 1)
          end)
  ∧ parse_line 2 (EmptyString +:+ "t_n_nh3" +:+ "  " +:+ ".5." +:+ " ") []
    = if Str.is_empty ".5." then inr ([] ++ [("t_n_nh3", None, None)])
      else match Float.float ".5." with
           | Some x => inr ([] ++ [("t_n_nh3", Some x, None)])
           | None => inl (ValueError ".5." 2)
           end.
Proof.
  split.
  - apply (parse_line_name_factor 1 [] " " "co(1.5)" "  " EmptyString " ");
      reflexivity.
  - apply (parse_line_name_factor 2 [] EmptyString "t_n_nh3" "  " ".5." " ");
      reflexivity.
Defined.

(** X7: a clause that is not closed is dropped without an exception. A
    line with a name, white space, a factor (possibly empty), white space
    or none, and [co(] followed by text without white space and without a
    closing bracket gives the entry of the name and the factor, without a
    cotransporter. *)
Theorem parse_line_open_clause (n : nat) (acc : list transporter)
    (pre name ws1 tok ws2 c post : string) :
  Str.all Char.isspace pre = true ->
  blank_or_comment name = false ->
  Str.all Char.nonspace name = true ->
  Str.all Char.isspace ws1 = true ->
  Str.is_empty ws1 = false ->
  Str.all Char.digit_or_dot tok = true ->
  Str.all Char.isspace ws2 = true ->
  Str.all Char.nonspace c = true ->
  Str.count ")"%char c = 0 ->
  Str.all Char.isspace post = true ->
  parse_line n
    (pre +:+ name +:+ ws1 +:+ tok +:+ ws2 +:+ "co(" +:+ c +:+ post) acc
  = if Str.is_empty tok then inr (acc ++ [(name, None, None)])
    else match Float.float tok with
         | Some x => inr (acc ++ [(name, Some x, None)])
         | None => inl (ValueError tok n)
         end.
Proof.
  intros Hpre Hname Hn Hw1 Hne Htok Hw2 Hc Hcount Hpost.
  apply StrFacts.is_empty_false in Hne.
  rewrite (LineMore.parse_line_parts n acc pre name ws1 tok ws2 c post);
    try done.
  rewrite (LineMore.co_text_open ws2 c); [done|done|].
  by rewrite LineMore.take_while_id.
Qed.

Lemma parse_line_open_clause_witness :
  parse_line 4 (EmptyString +:+ "t_c_glc" +:+ " " +:+ "2" +:+ " "
                +:+ "co(" +:+ "t_n_nh3" +:+ EmptyString) []
  = if Str.is_empty "2" then inr ([] ++ [("t_c_glc", None, None)])
    else match Float.float "2" with
         | Some x => inr ([] ++ [("t_c_glc", Some x, None)])
         | None => inl (ValueError "2" 4)
         end.
Proof.
  apply (parse_line_open_clause 4 [] EmptyString "t_c_glc" " " "2" " "
           "t_n_nh3" EmptyString); reflexivity.
Defined.

(** X8: a line of white space only, and a line whose first character
    after white space is the number sign, give no entry and no exception,
    whatever follows the sign. *)
Theorem parse_line_blank_or_comment (n : nat) (acc : list transporter)
    (pre rest : string) :
  Str.all Char.isspace pre = true ->
  parse_line n pre acc = inr acc
  ∧ parse_line n (pre +:+ "#" +:+ rest) acc = inr acc.
Proof.
  intros Hpre.
  assert (strip pre = EmptyString) as H1.
  { unfold strip, lstrip.
    rewrite <- (StrFacts.app_empty_r pre), LineMore.drop_while_app_all; done. }
  assert (blank_or_comment (strip (pre +:+ "#" +:+ rest)) = true) as H2.
  { unfold strip, lstrip. rewrite LineMore.drop_while_app_all by done.
    change ("#" +:+ rest) with (String "#" rest).
    rewrite StrFacts.drop_while_head, StrFacts.rstrip_head; done. }
  rewrite !ParseFacts.parse_line_classify.
  rewrite (proj2 (ParseFacts.classify_skipped pre)) by (by rewrite H1).
  by rewrite (proj2 (ParseFacts.classify_skipped _) H2).
Qed.

Lemma parse_line_blank_or_comment_witness :
  parse_line 5 "   " [("old_x_1", None, None)] = inr [("old_x_1", None, None)]
  ∧ parse_line 5 ("   " +:+ "#" +:+ " t_c_glc 1.2.3 co(") [("old_x_1", None, None)]
    = inr [("old_x_1", None, None)].
Proof.
  apply (parse_line_blank_or_comment 5 [("old_x_1", None, None)] "   "
           " t_c_glc 1.2.3 co(").
  reflexivity.
Defined.


(** X9: which lines [parse] rejects. A line that is read makes [parse]
    raise exactly when its factor token (group 2 of the match) is not
    empty and holds two dots or more, or nothing but dots; the exception
    is then the [ValueError] with this token and the number of the line,
    and no line raises anything else. *)
Theorem parse_line_value_error (n : nat) (raw : string)
    (acc : list transporter) (m : match_object) (tok : string) :
  blank_or_comment (strip raw) = false ->
  re_match line_pattern (strip raw) = Some m ->
  group m 2 = Some tok ->
  (parse_line n raw acc = inl (ValueError tok n)
   <-> Str.is_empty tok = false
       ∧ (2 ≤ Str.count "."%char tok ∨ Str.all Char.isdot tok = true))
  ∧ (∀ e, parse_line n raw acc = inl e -> e = ValueError tok n).
Proof.
  intros Hb Hm Htok. rewrite ReFacts.line_pattern_match in Hm.
  injection Hm as <-. rewrite ReFacts.line_group2 in Htok.
  injection Htok as <-.
  rewrite ParseFacts.parse_line_classify. unfold Tokens.classify.
  rewrite Hb.
  set (tok := Tokens.factor_token (strip raw)).
  assert (Str.all Char.digit_or_dot tok = true) as Hdd
    by apply StrFacts.all_take_while.
  destruct (Str.is_empty tok) eqn:He.
  { split; [|done]. split; [done | by intros [? _]]. }
  apply StrFacts.is_empty_false in He.
  pose proof (FloatMore.float_rejects tok Hdd He) as Hrej.
  destruct (Float.float tok) as [x|].
  - split; [|done]. split; [done|]. intros [_ H]. by apply Hrej in H.
  - split; [|by intros e [= <-]]. split; [|done].
    intros _. split; [done|]. by apply Hrej.
Qed.

Lemma parse_line_value_error_witness :
  (parse_line 2 " t_c_glc  1..2 co(x)" [] = inl (ValueError "1..2" 2)
   <-> Str.is_empty "1..2" = false
       ∧ (2 ≤ Str.count "."%char "1..2" ∨ Str.all Char.isdot "1..2" = true))
  ∧ (∀ e, parse_line 2 " t_c_glc  1..2 co(x)" [] = inl e ->
          e = ValueError "1..2" 2).
Proof.
  apply (parse_line_value_error 2 " t_c_glc  1..2 co(x)" []
           (Tokens.line_groups "t_c_glc  1..2 co(x)") "1..2");
    reflexivity.
Defined.


(** ** The groups of [split_by_type] *)

(** X10: the list [split_by_type] returns has one group for each type
    code that a name of the input has. No group is empty, the entries of
    a group have the type code of the group, different groups have
    different type codes, and a type code holds no underscore. *)
Theorem split_by_type_groups (self : parser) (l : list transporter)
    (G : list (list typed_transporter)) :
  split_by_type self (Some l) = inr G ->
  ∃ ts,
    NoDup ts
    ∧ Forall2 (fun t g => g ≠ [] ∧ Forall (fun e => type_of e = t) g) ts G
    ∧ Forall (fun t => Str.count "_"%char t = 0) ts
    ∧ (∀ t, t ∈ ts
            <-> ∃ entry, entry ∈ l ∧ derived_type (name_of entry) = Some t).
Proof.
  intros HG.
  destruct (SplitFacts.split_by_type_inv self l G HG) as (tl & Htl & ->).
  pose proof (SplitFacts.typed_entries_derived l tl Htl) as Hder.
  pose proof (SplitFacts.typed_entries_untyped l tl Htl) as Hun.
  rewrite Forall_forall in Hder.
  assert (∀ t, t ∈ first_seen (type_of <$> tl)
               <-> ∃ entry, entry ∈ l
                     ∧ derived_type (name_of entry) = Some t) as Hiff.
  { intros t. rewrite SplitFacts.elem_of_first_seen, list_elem_of_fmap.
    split.
    - intros (e & -> & He). exists (untyped e). split.
      + rewrite <- Hun. by apply list_elem_of_fmap_2.
      + by apply Hder.
    - intros (entry & Hin & Ht). rewrite <- Hun in Hin.
      apply list_elem_of_fmap in Hin as (e & -> & He). exists e.
      split; [|done]. destruct (Hder e He) as [Hd _]. congruence. }
  exists (first_seen (type_of <$> tl)). split_and!; [| | |done].
  - apply SplitFacts.NoDup_first_seen.
  - unfold groups_of. apply Forall2_fmap_r, Forall_Forall2_diag.
    apply Forall_forall. intros t Ht. simpl. split.
    + by apply SplitMore.of_type_nonempty, SplitFacts.elem_of_first_seen.
    + apply SplitMore.of_type_types.
  - apply Forall_forall. intros t Ht.
    apply Hiff in Ht as (entry & _ & Ht).
    rewrite SplitFacts.derived_type_code in Ht.
    apply SplitFacts.type_code_shape in Ht as (a & rest & _ & _ & Ht).
    by apply SplitMore.no_underscore_count.
Qed.

Lemma split_by_type_groups_witness :
  ∃ ts,
    NoDup ts
    ∧ Forall2 (fun t g => g ≠ [] ∧ Forall (fun e => type_of e = t) g) ts
        [[("c", "t_c_glc", None, None); ("c", "u_c_", Some (1 # 2), None)];
         [(EmptyString, "t__x", None, None)]]
    ∧ Forall (fun t => Str.count "_"%char t = 0) ts
    ∧ (∀ t, t ∈ ts
            <-> ∃ entry,
                  entry ∈ [("t_c_glc", None, None); ("t__x", None, None);
                           ("u_c_", Some (1 # 2), None)]
                  ∧ derived_type (name_of entry) = Some t).
Proof.
  apply (split_by_type_groups init
           [("t_c_glc", None, None); ("t__x", None, None);
            ("u_c_", Some (1 # 2), None)]).
  reflexivity.
Defined.

(** X11: grouping again changes nothing. The entries of the groups
    [split_by_type] returns, read group after group with the type codes
    taken off, are grouped into the same groups. *)
Theorem split_by_type_regroup (self : parser) (l : list transporter)
    (G : list (list typed_transporter)) :
  split_by_type self (Some l) = inr G ->
  split_by_type self (Some (untyped <$> concat G)) = inr G.
Proof.
  intros HG.
  destruct (SplitFacts.split_by_type_inv self l G HG) as (tl & Htl & ->).
  assert (typed_entries (untyped <$> concat (groups_of tl))
          = Some (concat (groups_of tl))) as Htyped.
  { apply SplitMore.typed_of_derived.
    rewrite SplitFacts.groups_of_concat.
    by apply (SplitFacts.typed_entries_derived l). }
  rewrite (SplitFacts.split_by_type_typed self _ _ Htyped).
  by rewrite SplitMore.groups_of_regroup.
Qed.

Lemma split_by_type_regroup_witness :
  split_by_type init
    (Some (untyped <$> concat
             [[("c", "t_c_glc", None, None); ("c", "u_c_", Some (1 # 2), None)];
              [("n", "t_n_x", None, None)]]))
  = inr [[("c", "t_c_glc", None, None); ("c", "u_c_", Some (1 # 2), None)];
         [("n", "t_n_x", None, None)]].
Proof.
  apply (split_by_type_regroup init
           [("t_c_glc", None, None); ("t_n_x", None, None);
            ("u_c_", Some (1 # 2), None)]).
  reflexivity.
Defined.

(** X12: a list that goes on. When [split_by_type] raises for a list, it
    raises the same for the list followed by further entries. When it
    returns for the longer list, it returns for the list itself, and the
    groups of the longer list are the groups of the list, in their
    places, each followed by further entries (or none), and then new
    groups; what is added are the further entries, each once. *)
Theorem split_by_type_app (self : parser) (l1 l2 : list transporter) :
  (∀ e, split_by_type self (Some l1) = inl e ->
        split_by_type self (Some (l1 ++ l2)) = inl e)
  ∧ (∀ G, split_by_type self (Some (l1 ++ l2)) = inr G ->
          ∃ G1 ext new,
            split_by_type self (Some l1) = inr G1
            ∧ length ext = length G1
            ∧ G = zip_with app G1 ext ++ new
            ∧ untyped <$> concat (ext ++ new) ≡ₚ l2).
Proof.
  split.
  - intros e. unfold split_by_type. rewrite SplitFacts.split_loop_app.
    by destruct (split_loop l1 (∅, [])) as [e'|[d lol]].
  - intros G HG.
    destruct (SplitFacts.split_by_type_inv self _ G HG) as (tl & Htl & ->).
    destruct (SplitMore.typed_entries_app_inv l1 l2 tl Htl)
      as (tl1 & tl2 & H1 & H2 & ->).
    set (fs1 := first_seen (type_of <$> tl1)).
    set (rest := filter (fun t => t ∉ type_of <$> tl1)
                   (first_seen (type_of <$> tl2))).
    exists (groups_of tl1), ((fun t => of_type t tl2) <$> fs1),
      ((fun t => of_type t tl2) <$> rest).
    split_and!.
    + by apply SplitFacts.split_by_type_typed.
    + unfold groups_of. by rewrite !length_fmap.
    + apply SplitMore.groups_of_app.
    + rewrite <- fmap_app.
      rewrite (SplitFacts.concat_groups tl2 (fs1 ++ rest)).
      * by rewrite (SplitFacts.typed_entries_untyped l2 tl2).
      * apply NoDup_app. split_and!.
        -- apply SplitFacts.NoDup_first_seen.
        -- intros t Ht Hr. unfold rest in Hr.
           apply list_elem_of_filter in Hr as [Hr _]. apply Hr.
           by apply SplitFacts.elem_of_first_seen.
        -- apply NoDup_filter, SplitFacts.NoDup_first_seen.
      * intros e He. rewrite elem_of_app.
        destruct (decide (type_of e ∈ type_of <$> tl1)) as [Hin|Hin].
        -- left. by apply SplitFacts.elem_of_first_seen.
        -- right. unfold rest. apply list_elem_of_filter. split; [done|].
           by apply SplitFacts.elem_of_first_seen, list_elem_of_fmap_2.
Qed.

Lemma split_by_type_app_witness :
  split_by_type init
    (Some ([("t_c_glc", None, None); ("a_b", None, None)]
           ++ [("t_n_x", None, None)]))
  = inl (SyntaxError_name "a_b")
  ∧ ∃ G1 ext new,
      split_by_type init (Some [("t_c_glc", None, None); ("t_n_x", None, None)])
      = inr G1
      ∧ length ext = length G1
      ∧ [[("c", "t_c_glc", None, None); ("c", "u_c_y", None, None)];
         [("n", "t_n_x", None, None)];
         [("p", "t_p_z", None, None)]]
        = zip_with app G1 ext ++ new
      ∧ untyped <$> concat (ext ++ new)
        ≡ₚ [("t_p_z", None, None); ("u_c_y", None, None)].
Proof.
  split.
  - apply (proj1 (split_by_type_app init
             [("t_c_glc", None, None); ("a_b", None, None)]
             [("t_n_x", None, None)])).
    reflexivity.
  - apply (proj2 (split_by_type_app init
             [("t_c_glc", None, None); ("t_n_x", None, None)]
             [("t_p_z", None, None); ("u_c_y", None, None)])).
    reflexivity.
Defined.


(** ** The entries of [parse] *)

(** X13: what [parse] appends are tokens. The name of an entry holds no
    white space and does not start with the number sign, its factor is
    not negative (a sign is no part of a factor), and its cotransporter
    name holds no white space; this holds for all it appends, also when
    the call raises. *)
Theorem parse_entries_are_tokens (self : parser) (lines : list string) :
  ∃ new,
    transporters (parse self lines).1 = transporters self ++ new
    ∧ Forall (fun t => Str.all Char.nonspace (name_of t) = true
                       ∧ blank_or_comment (name_of t) = false
                       ∧ from_option (fun x => (0 <= x)%Q) True t.1.2
                       ∧ from_option
                           (fun c => Str.all Char.nonspace c = true) True t.2)
        new.
Proof.
  unfold parse.
  destruct (ParseFacts.first_offending lines)
    as [Hok|(before & r & tok & after & -> & Hok & Hbad)].
  - rewrite (ParseFacts.parse_lines_ok _ _ _ Hok).
    eexists. split; [done | apply EntryMore.records_tokens].
  - rewrite (ParseFacts.parse_lines_err _ _ _ _ _ _ Hok Hbad).
    eexists. split; [done | apply EntryMore.records_tokens].
Qed.
